(** * Request building for the server API (src/server/request.ts)

    A shallow embedding of the request builder of the server package:
    the task-to-method table, the [ServerRequestUrl] class family, the
    header builder [getHeaders], the signal builder [getSignal] and the
    dispatcher [makeServerRequest].

    The TypeScript source runs on three platform classes (Headers, URL
    and AbortController/AbortSignal).  Each gets a module below that
    follows the algorithm of the standard which defines it (Fetch, URL,
    DOM); the functions of request.ts are then written over these
    modules, statement by statement.

    A JavaScript string is a sequence of 16-bit code units.  The
    strings handed to the header collection (the API key, the client
    string, the names and values of a plain customHeaders object) are
    kept as such, [JSString.t], since Headers converts them to
    ByteString and throws on a code unit above 255.  The strings that
    make up a URL are modelled as [string]s of code units 0..255, which
    covers the constants of the source and ASCII options.  The string
    arguments of the source (apiKey, path, key, value) reach the
    platform through ToString, so null or undefined handed in for one
    of them behaves as the string "null" or "undefined" does. *)

From Stdlib Require Import String Ascii List ZArith QArith Bool Lia DecimalString.
From Stdlib Require Sorted.
Import ListNotations.
Close Scope Q_scope.
Open Scope string_scope.
Open Scope list_scope.

(** ** Code units *)

Module Char.

Definition code (c : ascii) : N := N_of_ascii c.

Definition between (lo hi : N) (c : ascii) : bool :=
  (lo <=? code c)%N && (code c <=? hi)%N.

Definition is_upper : ascii -> bool := between 65 90.
Definition is_lower : ascii -> bool := between 97 122.
Definition is_digit : ascii -> bool := between 48 57.
Definition is_alnum (c : ascii) : bool :=
  is_upper c || is_lower c || is_digit c.

(** Byte-lowercase: 0x41..0x5A gain 0x20. *)
Definition lower (c : ascii) : ascii :=
  if is_upper c then ascii_of_N (code c + 32) else c.

Definition one_of (s : string) (c : ascii) : bool :=
  existsb (Ascii.eqb c) (list_ascii_of_string s).

(** RFC 9110 tchar, the characters of a header name. *)
Definition is_tchar (c : ascii) : bool :=
  is_alnum c || one_of "!#$%&'*+-.^_`|~" c.

(** HTTP whitespace byte: HT, LF, CR, SP. *)
Definition is_http_whitespace (c : ascii) : bool :=
  (code c =? 9)%N || (code c =? 10)%N || (code c =? 13)%N || (code c =? 32)%N.

(** HTTP tab or space byte. *)
Definition is_tab_or_space (c : ascii) : bool :=
  (code c =? 9)%N || (code c =? 32)%N.

(** NUL, LF and CR may not occur in a header value. *)
Definition is_value_forbidden (c : ascii) : bool :=
  (code c =? 0)%N || (code c =? 10)%N || (code c =? 13)%N.

Definition hex_digit (n : N) : ascii :=
  if (n <? 10)%N then ascii_of_N (48 + n) else ascii_of_N (55 + n).

End Char.

(** ** Strings *)

Module Str.

Fixpoint map (f : ascii -> ascii) (s : string) : string :=
  match s with
  | EmptyString => EmptyString
  | String c r => String (f c) (map f r)
  end.

Fixpoint forallb (p : ascii -> bool) (s : string) : bool :=
  match s with
  | EmptyString => true
  | String c r => p c && forallb p r
  end.

Definition lower : string -> string := map Char.lower.

Definition is_empty (s : string) : bool :=
  match s with
  | EmptyString => true
  | _ => false
  end.

(** JavaScript truthiness of a string: every string but the empty one. *)
Definition truthy (s : string) : bool := negb (is_empty s).

Fixpoint strip_leading (p : ascii -> bool) (s : string) : string :=
  match s with
  | EmptyString => EmptyString
  | String c r => if p c then strip_leading p r else s
  end.

Fixpoint strip_trailing (p : ascii -> bool) (s : string) : string :=
  match s with
  | EmptyString => EmptyString
  | String c r =>
      let r' := strip_trailing p r in
      if p c && is_empty r' then EmptyString else String c r'
  end.

Definition first_ok (p : ascii -> bool) (s : string) : bool :=
  match s with
  | EmptyString => true
  | String c _ => p c
  end.

Fixpoint last_ok (p : ascii -> bool) (s : string) : bool :=
  match s with
  | EmptyString => true
  | String c EmptyString => p c
  | String _ r => last_ok p r
  end.

End Str.

(** ** JavaScript strings *)

Module JSString.

(** A JavaScript string by its code units, each below 65536; the
    definitions below only ask whether a code unit is above 255. *)
Definition t : Type := list N.

(** The JavaScript string of a string of code units 0..255. *)
Definition of_string (s : string) : t :=
  List.map Char.code (list_ascii_of_string s).

Definition is_ByteString (s : t) : bool :=
  forallb (fun u => (u <=? 255)%N) s.

(** The byte string of a JavaScript string that is a ByteString: the
    same code units.  (Of a code unit above 255 the low eight bits are
    kept; the conversion below throws before it comes to that.) *)
Definition bytes (s : t) : string :=
  string_of_list_ascii (List.map ascii_of_N s).

Definition pair_of_strings (p : string * string) : t * t :=
  (of_string (fst p), of_string (snd p)).

Definition pair_bytes (p : t * t) : string * string :=
  (bytes (fst p), bytes (snd p)).

End JSString.

(** ** Exceptions

    A call either returns a value or throws.  [TypeError] is what the
    platform throws; [GoogleGenerativeAIRequestInputError] is the error
    class of ../errors.  The message templates of request.ts are kept
    as constructors, each carrying the interpolated value. *)

Inductive message : Type :=
| UnableToConvert (customHeaders : list (JSString.t * JSString.t))
    (* `unable to convert customHeaders value ${...} to Headers: ${e.message}` *)
| CannotSetReserved (headerName : string)
    (* `Cannot set reserved header name ${headerName}` *)
| OnlyViaApiClient (headerName : string).
    (* `Header name ${headerName} can only be set using the apiClient field` *)

Inductive exn : Type :=
| TypeError
| GoogleGenerativeAIRequestInputError (m : message).

Definition result (A : Type) : Type := (exn + A)%type.

Definition ret {A} (a : A) : result A := inr a.
Definition throw {A} (e : exn) : result A := inl e.
Definition bind {A B} (c : result A) (k : A -> result B) : result B :=
  match c with
  | inl e => inl e
  | inr a => k a
  end.

Notation "x <- c ;; k" := (bind c (fun x => k))
  (at level 61, c at next level, right associativity).

(** [is_input_error r]: the call threw a GoogleGenerativeAIRequestInputError. *)
Definition is_input_error {A} (r : result A) : bool :=
  match r with
  | inl (GoogleGenerativeAIRequestInputError _) => true
  | _ => false
  end.

(** ** Conversions of WebIDL

    The methods of Headers take ByteString arguments: WebIDL converts
    the JavaScript string handed in, and throws a TypeError when one of
    its code units is above 255. *)

Module WebIDL.

(** Converting a JavaScript string to ByteString. *)
Definition to_ByteString (s : JSString.t) : result string :=
  if JSString.is_ByteString s then ret (JSString.bytes s) else throw TypeError.

(** Converting an object to record<ByteString, ByteString>: every own
    property, key and value converted, in property order. *)
Fixpoint to_record (init : list (JSString.t * JSString.t))
  : result (list (string * string)) :=
  match init with
  | [] => ret []
  | (key, value) :: rest =>
      key <- to_ByteString key ;;
      value <- to_ByteString value ;;
      rest <- to_record rest ;;
      ret ((key, value) :: rest)
  end.

End WebIDL.

(** `a || b` on optional strings: [a] unless it is undefined or empty. *)
Definition or_default (a : option string) (b : string) : string :=
  match a with
  | Some s => if Str.truthy s then s else b
  | None => b
  end.

(** ** The platform's header collection (Fetch standard, class Headers) *)

Module Headers.

(** A header list: (name, value) pairs in insertion order. *)
Definition t : Type := list (string * string).

Definition new : t := [].

(** A header name is a non-empty token. *)
Definition is_header_name (n : string) : bool :=
  negb (Str.is_empty n) && Str.forallb Char.is_tchar n.

(** A header value has no leading or trailing HTTP tab or space and
    holds no NUL, LF or CR. *)
Definition is_header_value (v : string) : bool :=
  Str.first_ok (fun c => negb (Char.is_tab_or_space c)) v
  && Str.last_ok (fun c => negb (Char.is_tab_or_space c)) v
  && Str.forallb (fun c => negb (Char.is_value_forbidden c)) v.

(** Normalizing a value strips leading and trailing HTTP whitespace. *)
Definition normalize (v : string) : string :=
  Str.strip_trailing Char.is_http_whitespace
    (Str.strip_leading Char.is_http_whitespace v).

(** Names match byte-case-insensitively. *)
Definition name_eqb (a b : string) : bool := Str.lower a =? Str.lower b.

Definition contains (name : string) (l : t) : bool :=
  existsb (fun h => name_eqb (fst h) name) l.

(** Header list append: a name already in the list is written the
    way its first occurrence is. *)
Definition list_append (name value : string) (l : t) : t :=
  let name' :=
    match find (fun h => name_eqb (fst h) name) l with
    | Some h => fst h
    | None => name
    end in
  l ++ [(name', value)].

(** Appending a header to a Headers object, guard "none": normalize
    the value, validate name and value, append to the header list. *)
Definition append_header (name value : string) (l : t) : result t :=
  let value := normalize value in
  if is_header_name name && is_header_value value
  then ret (list_append name value l)
  else throw TypeError.

(** Headers.prototype.append(name, value): both arguments are
    converted to ByteString, then the header is appended. *)
Definition append (name value : JSString.t) (l : t) : result t :=
  name <- WebIDL.to_ByteString name ;;
  value <- WebIDL.to_ByteString value ;;
  append_header name value l.

(** Filling a Headers object with a record: append each entry in
    turn. *)
Fixpoint fill (init : list (string * string)) (l : t) : result t :=
  match init with
  | [] => ret l
  | (name, value) :: rest => l' <- append_header name value l ;; fill rest l'
  end.

(** new Headers(init) for a plain object: convert it to a record,
    then fill the new collection with it. *)
Definition of_init (init : list (JSString.t * JSString.t)) : result t :=
  init <- WebIDL.to_record init ;;
  fill init new.

Definition values_of (name : string) (l : t) : list string :=
  List.map snd (filter (fun h => name_eqb (fst h) name) l).

(** Getting a header from a header list: the values of every header
    of that name, joined with 0x2C 0x20. *)
Definition get (name : string) (l : t) : option string :=
  if contains name l then Some (String.concat ", " (values_of name l))
  else None.

Fixpoint insert (x : string) (l : list string) : list string :=
  match l with
  | [] => [x]
  | y :: r => if String.leb x y then x :: l else y :: insert x r
  end.

Definition sort (l : list string) : list string :=
  fold_right insert [] l.

(** The names of a header list as a sorted lowercase set. *)
Definition sorted_lowercase_names (l : t) : list string :=
  sort (nodup string_dec (List.map (fun h => Str.lower (fst h)) l)).

(** Sort and combine: what entries() iterates over. *)
Definition sort_and_combine (l : t) : list (string * string) :=
  flat_map
    (fun name =>
       if name =? "set-cookie"
       then List.map (pair name) (values_of name l)
       else match get name l with
            | Some value => [(name, value)]
            | None => []
            end)
    (sorted_lowercase_names l).

Definition entries : t -> list (string * string) := sort_and_combine.

(** The state invariant of a Headers object: every stored pair passed
    the checks of [append]. *)
Definition wf (l : t) : bool :=
  forallb (fun h => is_header_name (fst h) && is_header_value (snd h)) l.

End Headers.

(** ** The platform's URL class (URL standard) *)

Module URL.

Local Open Scope string_scope.

(** A URL record with an authority: scheme, serialized host (with its
    port, when it has one), path segments, query and fragment, and
    the list of the URLSearchParams object bound to it. *)
Record t : Type := mk {
  scheme : string;
  host : string;
  path : list string;
  query : option string;
  fragment : option string;
  searchParams : list (string * string)
}.

(** Path serializing: each segment preceded by a slash. *)
Definition pathname (u : t) : string :=
  String.concat "" (List.map (fun seg => "/" ++ seg) (path u)).

(** The URL serializer, which href and toString() return. *)
Definition href (u : t) : string :=
  scheme u ++ "://" ++ host u ++ pathname u
  ++ match query u with Some q => "?" ++ q | None => "" end
  ++ match fragment u with Some f => "#" ++ f | None => "" end.

(** UTF-8 bytes of a code point below 256. *)
Definition utf8 (c : ascii) : list N :=
  let n := Char.code c in
  if (n <? 128)%N then [n]
  else [(192 + n / 64)%N; (128 + n mod 64)%N].

Definition percent_encode_byte (b : N) : string :=
  String "%" (String (Char.hex_digit (b / 16)) (String (Char.hex_digit (b mod 16)) "")).

(** The application/x-www-form-urlencoded byte serializer: alphanumerics
    and * - . _ stay, a space becomes +, every other byte is
    percent-encoded. *)
Definition form_encode_char (c : ascii) : string :=
  if Char.is_alnum c || Char.one_of "*-._" c then String c ""
  else if (Char.code c =? 32)%N then "+"
  else String.concat "" (List.map percent_encode_byte (utf8 c)).

Fixpoint form_encode (s : string) : string :=
  match s with
  | EmptyString => EmptyString
  | String c r => form_encode_char c ++ form_encode r
  end.

Definition form_pair (p : string * string) : string :=
  form_encode (fst p) ++ "=" ++ form_encode (snd p).

(** The application/x-www-form-urlencoded serializer: pairs joined
    with an ampersand. *)
Definition form_serialize (l : list (string * string)) : string :=
  fold_left
    (fun output p =>
       (if Str.is_empty output then output else output ++ "&") ++ form_pair p)
    l "".

(** Updating a URLSearchParams object writes its serialization to the
    query of its URL (null when it is empty). *)
Definition update (u : t) : t :=
  let serialized := form_serialize (searchParams u) in
  mk (scheme u) (host u) (path u)
     (if Str.is_empty serialized then None else Some serialized)
     (fragment u) (searchParams u).

(** URLSearchParams.prototype.append *)
Definition searchParams_append (name value : string) (u : t) : t :=
  update (mk (scheme u) (host u) (path u) (query u) (fragment u)
             (searchParams u ++ [(name, value)])%list).

Definition set_path (p : list string) (u : t) : t :=
  mk (scheme u) (host u) p (query u) (fragment u) (searchParams u).

End URL.

(** The two entry points of the URL parser that request.ts reaches:
    the constructor ([None] is its TypeError) and the path state the
    pathname setter runs. *)
Class Platform : Type := {
  URL_parse : string -> option URL.t;
  URL_path_state : URL.t -> string -> list string
}.

(** ** Numbers

    A JavaScript number is a finite double, hence a rational, or an
    infinity, or NaN.  request.ts compares one number with 0 and hands
    it to setTimeout; no arithmetic is done on it. *)

Inductive number : Type :=
| Finite (q : Q)
| PlusInfinity
| MinusInfinity
| NaN.

(** `n >= 0`, which is false on NaN. *)
Definition number_ge_0 (n : number) : bool :=
  match n with
  | Finite q => Qle_bool 0 q
  | PlusInfinity => true
  | MinusInfinity => false
  | NaN => false
  end.

(** A property that is present holds null or a value.  request.ts is
    compiled without strict null checks (getSignal, declared to return
    AbortSignal | null, returns undefined by running off its end), so
    null is a member of every property type. *)
Inductive nullable (A : Type) : Type :=
| Null
| Value (a : A).

Arguments Null {A}.
Arguments Value {A} a.

(** ToNumber on a number or null: null is +0.  It is applied by `>=`
    and by setTimeout to its delay. *)
Definition to_number (t : nullable number) : number :=
  match t with
  | Null => Finite 0
  | Value n => n
  end.

(** ** The platform's AbortController and timers (DOM standard) *)

Module Abort.

(** A reference to an AbortSignal object of the heap. *)
Definition signal : Type := nat.

(** The one closure request.ts registers: () => controller.abort(),
    for the controller whose signal is [target]. *)
Inductive callback : Type :=
| AbortController_abort (target : signal).

Record signal_state : Type := mk_signal {
  aborted : bool;
  listeners : list callback   (* listeners of the "abort" event *)
}.

Record heap : Type := mk_heap {
  signals : list signal_state;
  timers : list (number * callback)   (* setTimeout: delay and callback *)
}.

Definition empty : heap := mk_heap [] [].

Definition is_aborted (s : signal) (h : heap) : bool :=
  match nth_error (signals h) s with
  | Some st => aborted st
  | None => false
  end.

Fixpoint update_nth {A} (n : nat) (f : A -> A) (l : list A) : list A :=
  match l, n with
  | [], _ => []
  | x :: r, O => f x :: r
  | x :: r, S n' => x :: update_nth n' f r
  end.

(** new AbortController(): a fresh signal, not aborted, no listener. *)
Definition new_AbortController (h : heap) : signal * heap :=
  (List.length (signals h),
   mk_heap (signals h ++ [mk_signal false []]) (timers h)).

(** signal.addEventListener("abort", cb): the listener is stored; it
    runs when the event is dispatched, which happens once, at the
    moment the signal becomes aborted. *)
Definition addEventListener (s : signal) (cb : callback) (h : heap) : heap :=
  mk_heap
    (update_nth s (fun st => mk_signal (aborted st) (listeners st ++ [cb]))
       (signals h))
    (timers h).

(** setTimeout(cb, delay): the delay is converted to a number and the
    timer is stored. *)
Definition setTimeout (cb : callback) (delay : nullable number) (h : heap)
  : heap :=
  mk_heap (signals h) (timers h ++ [(to_number delay, cb)]).

(** Signal abort: nothing on an aborted signal; otherwise the flag is
    set and the listeners run.  A listener aborts a signal that was
    not aborted yet, so the nesting is bounded by the number of
    signals. *)
Fixpoint abort_rec (fuel : nat) (s : signal) (h : heap) : heap :=
  match fuel with
  | O => h
  | S fuel' =>
      match nth_error (signals h) s with
      | None => h
      | Some st =>
          if aborted st then h
          else
            let h' :=
              mk_heap
                (update_nth s (fun st => mk_signal true (listeners st))
                   (signals h))
                (timers h) in
            fold_left
              (fun h cb =>
                 match cb with
                 | AbortController_abort target => abort_rec fuel' target h
                 end)
              (listeners st) h'
      end
  end.

Definition abort (s : signal) (h : heap) : heap :=
  abort_rec (S (List.length (signals h))) s h.

(** A timer of delay [d] fires: its callback runs. *)
Definition run_callback (cb : callback) (h : heap) : heap :=
  match cb with
  | AbortController_abort target => abort target h
  end.

End Abort.

(** ** Types of ../../types and ./constants *)

(** Modelled from the spec: the task enumeration [RpcTask] of
    ./constants, which is not part of the fragment; the spec lists its
    members as UPLOAD, LIST, GET, DELETE, UPDATE and CREATE. *)
Inductive RpcTask : Type :=
| UPLOAD | LIST | GET | DELETE | UPDATE | CREATE.

Definition RpcTask_eqb (a b : RpcTask) : bool :=
  match a, b with
  | UPLOAD, UPLOAD | LIST, LIST | GET, GET
  | DELETE, DELETE | UPDATE, UPDATE | CREATE, CREATE => true
  | _, _ => false
  end.

(** customHeaders is a Headers object or a plain object whose own
    properties are listed in property order. *)
Inductive CustomHeaders : Type :=
| HeadersObject (h : Headers.t)
| PlainObject (init : list (JSString.t * JSString.t)).

(** The options request.ts reads; [None] is a property that is
    undefined.  apiVersion and baseUrl are read with `||` and
    customHeaders is tested for truthiness: there null behaves as
    undefined does, and [None] stands for both.  signal is compared
    with undefined and timeout with 0, where null and undefined differ
    (null !== undefined, and null >= 0 while undefined >= 0 is false):
    these two keep null apart. *)
Record RequestOptions : Type := mkRequestOptions {
  apiVersion : option string;
  baseUrl : option string;
  customHeaders : option CustomHeaders;
  timeout : option (nullable number);
  signal : option (nullable Abort.signal)
}.

(** `requestOptions?.field` *)
Definition optional_chain {A} (requestOptions : option RequestOptions)
    (field : RequestOptions -> option A) : option A :=
  match requestOptions with
  | Some o => field o
  | None => None
  end.

(** Blob | string *)
Inductive Body : Type :=
| BlobBody (bytes : list Byte.byte)
| StringBody (s : string).

(** Truthiness of `body`: undefined and the empty string are falsy, an
    object is truthy. *)
Definition body_truthy (body : option Body) : bool :=
  match body with
  | None => false
  | Some (BlobBody _) => true
  | Some (StringBody s) => Str.truthy s
  end.

Module RequestInit.

Record t : Type := mk {
  method : string;
  headers : Headers.t;
  body : option Body;
  signal : option Abort.signal
}.

Definition set_body (b : option Body) (i : t) : t :=
  mk (method i) (headers i) b (signal i).

Definition set_signal (s : Abort.signal) (i : t) : t :=
  mk (method i) (headers i) (body i) (Some s).

End RequestInit.

(** What ../requests/request supplies: two constants, the client
    string of the identity header, and the generic dispatch function
    makeServerRequest ends in. *)
Class Collaborators : Type := {
  DEFAULT_API_VERSION : string;
  DEFAULT_BASE_URL : string;
  getClientHeaders : option RequestOptions -> JSString.t;
  makeRequest :
    forall R : Type,
      string -> RequestInit.t -> (string -> RequestInit.t -> R) -> R
}.

(** Modelled from the spec: [makeRequest] of ../requests/request, which
    is not part of the fragment.  The spec has the dispatcher "invoke the
    transport function with the stringified URL and this descriptor,
    returning its result unchanged". *)
Definition spec_makeRequest {R} (url : string) (fetchOptions : RequestInit.t)
    (fetchFn : string -> RequestInit.t -> R) : R :=
  fetchFn url fetchOptions.

(** Collaborators whose makeRequest is the one the spec describes. *)
Definition makeRequest_as_specified (collaborators : Collaborators) : Prop :=
  forall (R : Type) (url : string) (fetchOptions : RequestInit.t)
         (fetchFn : string -> RequestInit.t -> R),
    makeRequest R url fetchOptions fetchFn
    = spec_makeRequest url fetchOptions fetchFn.

(** ** request.ts *)

Definition taskToMethod (task : RpcTask) : string :=
  match task with
  | UPLOAD => "POST"
  | LIST => "GET"
  | GET => "GET"
  | DELETE => "DELETE"
  | UPDATE => "PATCH"
  | CREATE => "POST"
  end.

(** An instance of ServerRequestUrl or of one of its subclasses.
    [_url] is [None] as long as the field was never assigned. *)
Record ServerRequestUrl : Type := mkServerRequestUrl {
  task : RpcTask;
  apiKey : JSString.t;
  requestOptions : option RequestOptions;
  _url : option URL.t
}.

Definition set_url (u : URL.t) (this : ServerRequestUrl) : ServerRequestUrl :=
  mkServerRequestUrl (task this) (apiKey this) (requestOptions this) (Some u).

(** The constructor of the base class has an empty body. *)
Definition new_ServerRequestUrl (task : RpcTask) (apiKey : JSString.t)
    (requestOptions : option RequestOptions) : ServerRequestUrl :=
  mkServerRequestUrl task apiKey requestOptions None.

(** Reading a property of `this._url` throws a TypeError while the
    field is undefined. *)
Definition the_url (this : ServerRequestUrl) : result URL.t :=
  match _url this with
  | Some u => ret u
  | None => throw TypeError
  end.

Section Request.

Context {platform : Platform} {collaborators : Collaborators}.

Definition new_URL (s : string) : result URL.t :=
  match URL_parse s with
  | Some u => ret u
  | None => throw TypeError
  end.

Definition appendPath (path : string) (this : ServerRequestUrl)
  : result ServerRequestUrl :=
  u <- the_url this ;;
  ret (set_url
         (URL.set_path
            (URL_path_state u (URL.pathname u ++ "/" ++ path)%string) u)
         this).

Definition appendParam (key value : string) (this : ServerRequestUrl)
  : result ServerRequestUrl :=
  u <- the_url this ;;
  ret (set_url (URL.searchParams_append key value u) this).

Definition toString (this : ServerRequestUrl) : result string :=
  u <- the_url this ;;
  ret (URL.href u).

(** The string CachedContentUrl hands to `new URL`. *)
Definition cachedContent_initialUrl (requestOptions : option RequestOptions)
  : string :=
  let apiVersion :=
    or_default (optional_chain requestOptions apiVersion) DEFAULT_API_VERSION in
  let baseUrl :=
    or_default (optional_chain requestOptions baseUrl) DEFAULT_BASE_URL in
  let initialUrl := baseUrl in
  let initialUrl := (initialUrl ++ "/" ++ apiVersion ++ "/cachedContents")%string in
  initialUrl.

Definition new_CachedContentUrl (task : RpcTask) (apiKey : JSString.t)
    (requestOptions : option RequestOptions) : result ServerRequestUrl :=
  let this := new_ServerRequestUrl task apiKey requestOptions in
  u <- new_URL (cachedContent_initialUrl requestOptions) ;;
  ret (set_url u this).

(** The string FilesRequestUrl hands to `new URL`. *)
Definition files_initialUrl (task : RpcTask)
    (requestOptions : option RequestOptions) : string :=
  let apiVersion :=
    or_default (optional_chain requestOptions apiVersion) DEFAULT_API_VERSION in
  let baseUrl :=
    or_default (optional_chain requestOptions baseUrl) DEFAULT_BASE_URL in
  let initialUrl := baseUrl in
  let initialUrl :=
    if RpcTask_eqb task UPLOAD then (initialUrl ++ "/upload")%string
    else initialUrl in
  let initialUrl := (initialUrl ++ "/" ++ apiVersion ++ "/files")%string in
  initialUrl.

Definition new_FilesRequestUrl (task : RpcTask) (apiKey : JSString.t)
    (requestOptions : option RequestOptions) : result ServerRequestUrl :=
  let this := new_ServerRequestUrl task apiKey requestOptions in
  u <- new_URL (files_initialUrl task requestOptions) ;;
  ret (set_url u this).

(** The for-of loop of getHeaders over customHeaders.entries(); the
    names and values entries() yields are byte strings. *)
Fixpoint merge_custom (entries : list (string * string)) (headers : Headers.t)
  : result Headers.t :=
  match entries with
  | [] => ret headers
  | (headerName, headerValue) :: rest =>
      if headerName =? "x-goog-api-key" then
        throw (GoogleGenerativeAIRequestInputError (CannotSetReserved headerName))
      else if headerName =? "x-goog-api-client" then
        throw (GoogleGenerativeAIRequestInputError (OnlyViaApiClient headerName))
      else
        headers' <- Headers.append (JSString.of_string headerName)
                      (JSString.of_string headerValue) headers ;;
        merge_custom rest headers'
  end.

(** The conversion of customHeaders: a Headers object is used as it
    is, anything else goes through `new Headers`, whose exception is
    rethrown as an input error. *)
Definition to_Headers (customHeaders : CustomHeaders) : result Headers.t :=
  match customHeaders with
  | HeadersObject h => ret h
  | PlainObject init =>
      match Headers.of_init init with
      | inr h => ret h
      | inl _ =>
          throw (GoogleGenerativeAIRequestInputError (UnableToConvert init))
      end
  end.

Definition getHeaders (url : ServerRequestUrl) : result Headers.t :=
  let headers := Headers.new in
  headers <- Headers.append (JSString.of_string "x-goog-api-client")
               (getClientHeaders (requestOptions url)) headers ;;
  headers <- Headers.append (JSString.of_string "x-goog-api-key")
               (apiKey url) headers ;;
  match optional_chain (requestOptions url) customHeaders with
  | Some customHeaders =>
      customHeaders <- to_Headers customHeaders ;;
      merge_custom (Headers.entries customHeaders) headers
  | None => ret headers
  end.

(** `requestOptions?.timeout >= 0`: false for undefined (which
    converts to NaN), true for null (which converts to +0). *)
Definition timeout_ge_0 (requestOptions : option RequestOptions) : bool :=
  match optional_chain requestOptions timeout with
  | Some t => number_ge_0 (to_number t)
  | None => false
  end.

(** `requestOptions?.signal !== undefined`: true for null. *)
Definition signal_defined (requestOptions : option RequestOptions) : bool :=
  match optional_chain requestOptions signal with
  | Some _ => true
  | None => false
  end.

(** getSignal works on the heap of signals and timers; a function
    that runs off its end returns undefined, here [None].  The guard
    compares the signal with undefined, the inner test
    `if (requestOptions.signal)` is on its truthiness: a signal of null
    passes the first and fails the second. *)
Definition getSignal (requestOptions : option RequestOptions) (h : Abort.heap)
  : option Abort.signal * Abort.heap :=
  if signal_defined requestOptions || timeout_ge_0 requestOptions then
    let (controller, h) := Abort.new_AbortController h in
    let h :=
      match optional_chain requestOptions timeout with
      | Some t =>
          if number_ge_0 (to_number t)
          then Abort.setTimeout (Abort.AbortController_abort controller) t h
          else h
      | None => h
      end in
    let h :=
      match optional_chain requestOptions signal with
      | Some (Value external) =>
          Abort.addEventListener external
            (Abort.AbortController_abort controller) h
      | Some Null => h
      | None => h
      end in
    (Some controller, h)
  else (None, h).

(** makeServerRequest threads the heap through getSignal; [fetchFn] is
    the transport handed in (the source falls back on the global fetch
    when none is).  The function is async: what it returns is the
    settled state of its promise, [inl] for a rejection with the
    exception thrown in its body. *)
Definition makeServerRequest {R} (url : ServerRequestUrl) (headers : Headers.t)
    (body : option Body) (fetchFn : string -> RequestInit.t -> R)
    (h : Abort.heap) : result R * Abort.heap :=
  let requestInit :=
    RequestInit.mk (taskToMethod (task url)) headers None None in
  let requestInit :=
    if body_truthy body then RequestInit.set_body body requestInit
    else requestInit in
  let (signal, h) := getSignal (requestOptions url) h in
  let requestInit :=
    match signal with
    | Some s => RequestInit.set_signal s requestInit
    | None => requestInit
    end in
  (s <- toString url ;; ret (makeRequest R s requestInit fetchFn), h).

End Request.

(** ** A reference URL parser

    The URL standard's basic parser over the URLs this package is used
    with: http and https, an ASCII host name, an optional port.  It
    answers [Parsed], [Failure] (the parser of the standard returns
    failure, `new URL` throws) or [Unsupported] (the input needs a part
    of the standard that is not written out here: credentials, IP
    addresses, percent-encoding, other schemes). *)

Module URLParser.

Local Open Scope string_scope.

Inductive outcome : Type :=
| Parsed (u : URL.t)
| Failure
| Unsupported.

(** Longest prefix of characters satisfying [p], and the rest. *)
Fixpoint span (p : ascii -> bool) (s : string) : string * string :=
  match s with
  | EmptyString => (EmptyString, EmptyString)
  | String c r =>
      if p c then let (a, b) := span p r in (String c a, b)
      else (EmptyString, s)
  end.

(** The pieces of [s] between the characters satisfying [sep]. *)
Fixpoint split (sep : ascii -> bool) (s : string) : list string :=
  match s with
  | EmptyString => [EmptyString]
  | String c r =>
      if sep c then EmptyString :: split sep r
      else match split sep r with
           | x :: xs => String c x :: xs
           | [] => [String c EmptyString]
           end
  end.

Definition ch (c : ascii) (d : ascii) : bool := Ascii.eqb c d.

(** Characters the reference parser reads: letters, digits and the
    punctuation no encode set of the standard touches. *)
Definition supported_char (c : ascii) : bool :=
  Char.is_alnum c || Char.one_of "!#$&()*+,-./:;=?_~" c.

Definition is_scheme_char (c : ascii) : bool :=
  Char.is_alnum c || Char.one_of "+-." c.

(** Scheme start state and scheme state, without a base URL. *)
Definition parse_scheme (s : string) : option (string * string) :=
  match s with
  | String c _ =>
      if Char.is_upper c || Char.is_lower c then
        match span is_scheme_char s with
        | (buffer, String ":" rest) => Some (Str.lower buffer, rest)
        | _ => None
        end
      else None
  | EmptyString => None
  end.

Definition default_port (scheme : string) : N :=
  if scheme =? "http" then 80 else 443.

Definition digits_value (s : string) : N :=
  fold_left (fun n c => (10 * n + (Char.code c - 48))%N)
    (list_ascii_of_string s) 0%N.

(** Port state: digits only, at most 65535, dropped when it is the
    default port of the scheme. *)
Definition parse_port (scheme port : string) : option (option N) :=
  if Str.forallb Char.is_digit port then
    if Str.is_empty port then Some None
    else
      let n := digits_value port in
      if (65535 <? n)%N then None
      else if (n =? default_port scheme)%N then Some None
      else Some (Some n)
  else None.

Definition label_supported (label : string) : bool :=
  match label with
  | EmptyString => false
  | String c _ =>
      negb (Char.is_digit c)
      && Str.forallb (fun c => Char.is_alnum c || ch c "-") label
      && negb (String.prefix "xn--" (Str.lower label))
  end.

Definition host_supported (host : string) : bool :=
  forallb label_supported (split (ch ".") host).

Definition is_single_dot (seg : string) : bool := seg =? ".".
Definition is_double_dot (seg : string) : bool := seg =? "..".

(** Path state, one segment after the other; the last one is followed
    by the end of the path, the others by a slash. *)
Fixpoint path_state (segments : list string) (path : list string)
  : list string :=
  match segments with
  | [] => path
  | [seg] =>
      if is_double_dot seg then (removelast path ++ [""])%list
      else if is_single_dot seg then (path ++ [""])%list
      else (path ++ [seg])%list
  | seg :: rest =>
      path_state rest
        (if is_double_dot seg then removelast path
         else if is_single_dot seg then path
         else (path ++ [seg])%list)
  end.

(** Path start state: one leading slash is skipped. *)
Definition parse_path (s : string) : list string :=
  let s := match s with String "/" r => r | _ => s end in
  path_state (split (ch "/") s) [].

(** The application/x-www-form-urlencoded parser on a query without
    percent-encoded bytes. *)
Definition plus_to_space (s : string) : string :=
  Str.map (fun c => if ch c "+" then " "%char else c) s.

Definition parse_pair (s : string) : string * string :=
  match span (fun c => negb (ch c "=")) s with
  | (name, String _ value) => (plus_to_space name, plus_to_space value)
  | (name, EmptyString) => (plus_to_space name, EmptyString)
  end.

Definition parse_form (query : string) : list (string * string) :=
  List.map parse_pair
    (filter (fun s => negb (Str.is_empty s)) (split (ch "&") query)).

Definition serialize_host (host : string) (port : option N) : string :=
  match port with
  | None => host
  | Some n => host ++ ":" ++ DecimalString.NilZero.string_of_uint (N.to_uint n)
  end.

(** From the special authority slashes state on, for http and https. *)
Definition parse_special (scheme rest : string) : outcome :=
  let rest := Str.strip_leading (ch "/") rest in
  let (authority, rest) :=
    span (fun c => negb (ch c "/" || ch c "?" || ch c "#")) rest in
  let (host, port) := span (fun c => negb (ch c ":")) authority in
  if Str.is_empty host then Failure else
  match parse_port scheme (match port with String _ p => p | _ => port end) with
  | None => Failure
  | Some port =>
    if negb (host_supported host) then Unsupported else
    let (path, rest) := span (fun c => negb (ch c "?" || ch c "#")) rest in
    let (query, rest) :=
      match rest with
      | String "?" r =>
          let (q, rest) := span (fun c => negb (ch c "#")) r in (Some q, rest)
      | _ => (None, rest)
      end in
    let fragment :=
      match rest with
      | String "#" f => Some f
      | _ => None
      end in
    Parsed
      (URL.mk scheme (serialize_host (Str.lower host) port)
         (parse_path path) query fragment
         (match query with Some q => parse_form q | None => [] end))
  end.

Definition parse (input : string) : outcome :=
  if negb (Str.forallb supported_char input) then Unsupported else
  match parse_scheme input with
  | None => Failure
  | Some (scheme, rest) =>
      if negb ((scheme =? "http") || (scheme =? "https")) then Unsupported
      else parse_special scheme rest
  end.

(** The pathname setter: the path state run with a state override,
    under which ? and # are path characters and get percent-encoded. *)
Definition encode_path_char (c : ascii) : string :=
  if ch c "?" || ch c "#" then URL.percent_encode_byte (Char.code c)
  else String c "".

Fixpoint encode_path (s : string) : string :=
  match s with
  | EmptyString => EmptyString
  | String c r => encode_path_char c ++ encode_path r
  end.

Definition set_pathname (s : string) : list string :=
  List.map encode_path (parse_path s).

End URLParser.

(** The reference parser as a platform, for the concrete runs.  Where
    the parser answers [Failure] `new URL` throws.  On an [Unsupported]
    input the platform goes on where this parser stops: the instance
    answers [None] there, which says nothing about the platform, and
    every run and theorem below that uses the instance stays on inputs
    the parser supports.  Likewise [URLParser.set_pathname] is the
    pathname setter of the standard on paths of supported characters
    whose dot segments are written without percent-encoding. *)
Definition reference_platform : Platform := {|
  URL_parse s :=
    match URLParser.parse s with
    | URLParser.Parsed u => Some u
    | _ => None
    end;
  URL_path_state _ s := URLParser.set_pathname s
|}.

(** Collaborators for the concrete runs: the endpoint and version
    segment the package is published with, and a client string of the
    kind getClientHeaders returns. *)
Definition reference_collaborators : Collaborators := {|
  DEFAULT_API_VERSION := "v1beta";
  DEFAULT_BASE_URL := "https://generativelanguage.googleapis.com";
  getClientHeaders _ := JSString.of_string "genai-js/0.21.0";
  makeRequest := @spec_makeRequest
|}.

(** ** Vocabulary of the statements *)

(** A code unit other than NUL, LF and CR. *)
Definition unforbidden (c : ascii) : bool := negb (Char.is_value_forbidden c).

(** The names of a header list, lowercased. *)
Definition lower_names (l : Headers.t) : list string :=
  List.map (fun h => Str.lower (fst h)) l.

(** The two names getHeaders compares a custom header name with. *)
Definition reserved (n : string) : bool :=
  (n =? "x-goog-api-key") || (n =? "x-goog-api-client").

(** Every name of the list is written in lowercase. *)
Definition all_lower (l : list (string * string)) : Prop :=
  forall h, In h l -> Str.lower (fst h) = fst h.

(** An entry as [Headers.append] stores it. *)
Definition normalized (e : string * string) : string * string :=
  (fst e, Headers.normalize (snd e)).

(** A value [Headers.append] accepts: it converts to ByteString and,
    surrounding whitespace stripped, is a header value. *)
Definition value_accepted (v : JSString.t) : bool :=
  JSString.is_ByteString v
  && Headers.is_header_value (Headers.normalize (JSString.bytes v)).

(** Both strings of a pair convert to ByteString. *)
Definition pair_is_ByteString (p : JSString.t * JSString.t) : bool :=
  JSString.is_ByteString (fst p) && JSString.is_ByteString (snd p).

(** A name [Headers.append] accepts: it converts to ByteString and is
    a header name. *)
Definition name_accepted (n : JSString.t) : bool :=
  JSString.is_ByteString n && Headers.is_header_name (JSString.bytes n).

(** The names customHeaders supplies, as written. *)
Definition custom_names (c : CustomHeaders) : list JSString.t :=
  match c with
  | HeadersObject h => List.map (fun e => JSString.of_string (fst e)) h
  | PlainObject init => List.map fst init
  end.

(** A Headers object handed in by the caller satisfies the invariant of
    its class; a plain object is arbitrary. *)
Definition CustomHeaders_wf (c : CustomHeaders) : bool :=
  match c with
  | HeadersObject h => Headers.wf h
  | PlainObject _ => true
  end.

(** [fill] appends the entries of [init] one for one: the name up to
    case, the value normalized. *)
Definition filled (p q : string * string) : Prop :=
  Str.lower (fst q) = Str.lower (fst p) /\ snd q = Headers.normalize (snd p).

(** Characters the form serializer writes as they are. *)
Definition form_safe (c : ascii) : bool :=
  Char.is_alnum c || Char.one_of "*-._" c.

(** The path and parameter mutations of a request URL. *)
Inductive mutation : Type :=
| AppendPath (path : string)
| AppendParam (key value : string).

(** The heap getSignal leaves when its guard holds: one more signal,
    at most one more timer and one more listener. *)
Definition heap_after_getSignal (opts : option RequestOptions) (h : Abort.heap)
  : Abort.heap :=
  let controller := List.length (Abort.signals h) in
  let h := snd (Abort.new_AbortController h) in
  let h :=
    match optional_chain opts timeout with
    | Some t =>
        if number_ge_0 (to_number t)
        then Abort.setTimeout (Abort.AbortController_abort controller) t h
        else h
    | None => h
    end in
  match optional_chain opts signal with
  | Some (Value external) =>
      Abort.addEventListener external (Abort.AbortController_abort controller) h
  | Some Null => h
  | None => h
  end.

(** Running one listener of an abort event. *)
Definition run_listener (fuel : nat) (h : Abort.heap) (cb : Abort.callback)
  : Abort.heap :=
  match cb with
  | Abort.AbortController_abort target => Abort.abort_rec fuel target h
  end.

(** A character of a host name the reference parser takes. *)
Definition host_char (c : ascii) : bool :=
  Char.is_alnum c || URLParser.ch c "-" || URLParser.ch c ".".

(** A host the parser leaves as it is: supported and in lowercase. *)
Definition plain_host (host : string) : bool :=
  URLParser.host_supported host && (Str.lower host =? host).

(** A character of a path segment: supported and no delimiter. *)
Definition segment_char (c : ascii) : bool :=
  URLParser.supported_char c
  && negb (URLParser.ch c "/" || URLParser.ch c "?" || URLParser.ch c "#").

(** A path segment the parser leaves as it is: no dot segment. *)
Definition plain_segment (seg : string) : bool :=
  Str.forallb segment_char seg
  && negb (URLParser.is_single_dot seg) && negb (URLParser.is_double_dot seg).

Definition plain_scheme (scheme : string) : bool :=
  (scheme =? "http") || (scheme =? "https").

(** Path segments serialized: each preceded by a slash. *)
Definition joined (path : list string) : string :=
  String.concat "" (List.map (fun seg => "/" ++ seg)%string path).

(** A URL without port, query and fragment. *)
Definition plain_url (scheme host : string) (path : list string) : URL.t :=
  URL.mk scheme host path None None [].

Section Vocabulary.

Context {platform : Platform} {collaborators : Collaborators}.

(** The two values getHeaders sets itself are accepted by
    [Headers.append]. *)
Definition identity_valid (url : ServerRequestUrl) : bool :=
  value_accepted (getClientHeaders (requestOptions url))
  && value_accepted (apiKey url).

(** The header list after the two identity headers were appended. *)
Definition identity_headers (url : ServerRequestUrl) : Headers.t :=
  [("x-goog-api-client",
    Headers.normalize (JSString.bytes (getClientHeaders (requestOptions url))));
   ("x-goog-api-key", Headers.normalize (JSString.bytes (apiKey url)))].

(** The customHeaders of the URL object converted as getHeaders
    converts them (the empty collection when there are none). *)
Definition converted (url : ServerRequestUrl) : result Headers.t :=
  match optional_chain (requestOptions url) customHeaders with
  | Some custom => to_Headers custom
  | None => ret Headers.new
  end.

(** [CustomHeaders_wf] of the customHeaders of the URL object, if any. *)
Definition custom_wf (url : ServerRequestUrl) : bool :=
  match optional_chain (requestOptions url) customHeaders with
  | Some custom => CustomHeaders_wf custom
  | None => true
  end.

(** Performing one mutation, and a sequence of them. *)
Definition mutate (m : mutation) (this : ServerRequestUrl)
  : result ServerRequestUrl :=
  match m with
  | AppendPath path => appendPath path this
  | AppendParam key value => appendParam key value this
  end.

Fixpoint mutate_all (ms : list mutation) (this : ServerRequestUrl)
  : result ServerRequestUrl :=
  match ms with
  | [] => ret this
  | m :: rest => this' <- mutate m this ;; mutate_all rest this'
  end.

End Vocabulary.

(** The parameters a sequence of mutations appends, in call order. *)
Fixpoint params_of (ms : list mutation) : list (string * string) :=
  match ms with
  | [] => []
  | AppendParam key value :: rest => (key, value) :: params_of rest
  | AppendPath _ :: rest => params_of rest
  end.

(** A pair of byte strings that passes the validation of a header. *)
Definition header_accepted (p : string * string) : bool :=
  Headers.is_header_name (fst p)
  && Headers.is_header_value (Headers.normalize (snd p)).

(** A pair that [Headers.append] accepts. *)
Definition pair_accepted (p : JSString.t * JSString.t) : bool :=
  name_accepted (fst p) && value_accepted (snd p).

(** Entries in ascending byte order of their names. *)
Definition name_le (a b : string * string) : Prop :=
  String.leb (fst a) (fst b) = true.

(** ** Inputs of the concrete runs *)

(** The line feed, code unit 10. *)
Definition LF : string := String "010"%char EmptyString.

(** The API key "k". *)
Definition key_k : JSString.t := JSString.of_string "k".

(** A plain object whose keys and values are the given byte strings. *)
Definition plain_object (init : list (string * string)) : CustomHeaders :=
  PlainObject (List.map JSString.pair_of_strings init).

Definition options_with_headers (init : list (string * string)) : RequestOptions :=
  mkRequestOptions None None (Some (plain_object init)) None None.

Definition options_with_baseUrl (baseUrl : string) : RequestOptions :=
  mkRequestOptions None (Some baseUrl) None None None.

(** The FilesRequestUrl object for GET that the reference platform
    builds with the default endpoint. *)
Definition files_url (apiKey : string) (opts : option RequestOptions)
  : ServerRequestUrl :=
  mkServerRequestUrl GET (JSString.of_string apiKey) opts
    (Some (URL.mk "https" "generativelanguage.googleapis.com"
             ["v1beta"; "files"] None None [])).

(** * Properties *)

(** ** Code units and strings *)

Ltac by_cases_on c :=
  destruct c as [[] [] [] [] [] [] [] []]; vm_compute; intuition congruence.

Lemma Char_lower_idem (c : ascii) : Char.lower (Char.lower c) = Char.lower c.
Proof. by_cases_on c. Qed.

Lemma Char_lower_tchar (c : ascii) :
  Char.is_tchar c = true -> Char.is_tchar (Char.lower c) = true.
Proof. by_cases_on c. Qed.

Lemma Char_whitespace_tab_or_space (c : ascii) :
  Char.is_http_whitespace c = false -> Char.is_tab_or_space c = false.
Proof. by_cases_on c. Qed.

Lemma Char_forbidden_whitespace (c : ascii) :
  Char.is_tab_or_space c = false -> Char.is_value_forbidden c = false ->
  Char.is_http_whitespace c = false.
Proof. by_cases_on c. Qed.

Lemma Str_lower_idem (s : string) : Str.lower (Str.lower s) = Str.lower s.
Proof.
  unfold Str.lower.
  induction s as [|c r IH]; cbn [Str.map]; [reflexivity|].
  now rewrite Char_lower_idem, IH.
Qed.

Lemma Str_lower_empty (s : string) :
  Str.is_empty (Str.lower s) = Str.is_empty s.
Proof. now destruct s. Qed.

Lemma Str_app_assoc (a b c : string) : ((a ++ b) ++ c = a ++ b ++ c)%string.
Proof. induction a as [|x r IH]; simpl; [reflexivity|]. now rewrite IH. Qed.

Lemma Str_forallb_app (p : ascii -> bool) (a b : string) :
  Str.forallb p (a ++ b) = Str.forallb p a && Str.forallb p b.
Proof.
  induction a as [|c r IH]; simpl; [reflexivity|].
  now rewrite IH, andb_assoc.
Qed.

Lemma Str_forallb_strip_leading (p q : ascii -> bool) (s : string) :
  Str.forallb p s = true -> Str.forallb p (Str.strip_leading q s) = true.
Proof.
  induction s as [|c r IH]; simpl; [reflexivity|].
  intros H. apply andb_true_iff in H as [Hc Hr].
  destruct (q c); [auto|]. simpl. now rewrite Hc, Hr.
Qed.

Lemma Str_forallb_strip_trailing (p q : ascii -> bool) (s : string) :
  Str.forallb p s = true -> Str.forallb p (Str.strip_trailing q s) = true.
Proof.
  induction s as [|c r IH]; simpl; [reflexivity|].
  intros H. apply andb_true_iff in H as [Hc Hr].
  destruct (q c && Str.is_empty (Str.strip_trailing q r)); [reflexivity|].
  simpl. now rewrite Hc, IH.
Qed.

Lemma Str_first_strip_leading (p : ascii -> bool) (s : string) :
  Str.first_ok (fun c => negb (p c)) (Str.strip_leading p s) = true.
Proof.
  induction s as [|c r IH]; simpl; [reflexivity|].
  destruct (p c) eqn:E; [assumption|]. simpl. now rewrite E.
Qed.

Lemma Str_first_strip_trailing (p q : ascii -> bool) (s : string) :
  Str.first_ok p s = true -> Str.first_ok p (Str.strip_trailing q s) = true.
Proof.
  destruct s as [|c r]; simpl; [reflexivity|].
  intros H. now destruct (q c && Str.is_empty (Str.strip_trailing q r)).
Qed.

Lemma Str_last_strip_trailing (p : ascii -> bool) (s : string) :
  Str.last_ok (fun c => negb (p c)) (Str.strip_trailing p s) = true.
Proof.
  induction s as [|c r IH]; simpl; [reflexivity|].
  destruct (Str.strip_trailing p r) as [|c' r'] eqn:E.
  - rewrite andb_true_r. destruct (p c) eqn:Ec; simpl; [reflexivity|].
    now rewrite Ec.
  - rewrite andb_false_r. exact IH.
Qed.

Lemma Str_first_ok_weaken (p q : ascii -> bool) (s : string) :
  (forall c, p c = true -> q c = true) ->
  Str.first_ok p s = true -> Str.first_ok q s = true.
Proof. destruct s; simpl; auto. Qed.

Lemma Str_last_ok_weaken (p q : ascii -> bool) (s : string) :
  (forall c, p c = true -> q c = true) ->
  Str.last_ok p s = true -> Str.last_ok q s = true.
Proof.
  intros Hpq. induction s as [|c r IH]; simpl; [reflexivity|].
  destruct r; auto.
Qed.

Lemma Str_strip_leading_id (p : ascii -> bool) (s : string) :
  Str.first_ok (fun c => negb (p c)) s = true -> Str.strip_leading p s = s.
Proof.
  destruct s as [|c r]; simpl; [reflexivity|].
  intros H. apply negb_true_iff in H. now rewrite H.
Qed.

Lemma Str_strip_trailing_id (p : ascii -> bool) (s : string) :
  Str.last_ok (fun c => negb (p c)) s = true -> Str.strip_trailing p s = s.
Proof.
  induction s as [|c r IH]; simpl; [reflexivity|].
  destruct r as [|c' r'].
  - simpl. intros H. apply negb_true_iff in H. now rewrite H.
  - intros H. rewrite (IH H). now rewrite andb_false_r.
Qed.

(** ** JavaScript strings and their conversion *)

Lemma Char_code_byte (c : ascii) : (Char.code c <=? 255)%N = true.
Proof. by_cases_on c. Qed.

Lemma JSString_of_string_ByteString (s : string) :
  JSString.is_ByteString (JSString.of_string s) = true.
Proof.
  induction s as [|c r IH]; [reflexivity|].
  unfold JSString.is_ByteString, JSString.of_string in *.
  cbn [list_ascii_of_string List.map forallb].
  now rewrite Char_code_byte, IH.
Qed.

Lemma JSString_bytes_of_string (s : string) :
  JSString.bytes (JSString.of_string s) = s.
Proof.
  induction s as [|c r IH]; [reflexivity|].
  unfold JSString.bytes, JSString.of_string in *.
  cbn [list_ascii_of_string List.map string_of_list_ascii].
  unfold Char.code at 1. now rewrite ascii_N_embedding, IH.
Qed.

Lemma JSString_of_string_inj (a b : string) :
  JSString.of_string a = JSString.of_string b -> a = b.
Proof.
  intros H. rewrite <- (JSString_bytes_of_string a), H.
  apply JSString_bytes_of_string.
Qed.

Lemma JSString_pair_bytes_of_strings (p : string * string) :
  JSString.pair_bytes (JSString.pair_of_strings p) = p.
Proof.
  destruct p as [n v]. unfold JSString.pair_bytes, JSString.pair_of_strings.
  cbn [fst snd]. now rewrite !JSString_bytes_of_string.
Qed.

Lemma JSString_map_pair_bytes (init : list (string * string)) :
  List.map JSString.pair_bytes (List.map JSString.pair_of_strings init) = init.
Proof.
  induction init as [|p r IH]; [reflexivity|].
  cbn [List.map]. now rewrite JSString_pair_bytes_of_strings, IH.
Qed.

Lemma JSString_of_string_bytes (s : JSString.t) :
  JSString.is_ByteString s = true -> JSString.of_string (JSString.bytes s) = s.
Proof.
  unfold JSString.is_ByteString, JSString.of_string, JSString.bytes.
  induction s as [|u r IH]; [reflexivity|].
  cbn [forallb List.map string_of_list_ascii list_ascii_of_string].
  intros H. apply andb_true_iff in H as [Hu Hr].
  unfold Char.code at 1. rewrite N_ascii_embedding, (IH Hr); [reflexivity|].
  apply N.leb_le in Hu. lia.
Qed.

(** A byte string converts to itself. *)
Lemma WebIDL_to_ByteString_of_string (s : string) :
  WebIDL.to_ByteString (JSString.of_string s) = inr s.
Proof.
  unfold WebIDL.to_ByteString.
  now rewrite JSString_of_string_ByteString, JSString_bytes_of_string.
Qed.

(** The record conversion succeeds exactly when every key and every
    value is a ByteString, and keeps the code units. *)
Lemma WebIDL_to_record_eq (init : list (JSString.t * JSString.t)) :
  WebIDL.to_record init
  = if forallb pair_is_ByteString init
    then inr (List.map JSString.pair_bytes init)
    else inl TypeError.
Proof.
  induction init as [|[n v] rest IH]; [reflexivity|].
  cbn [WebIDL.to_record forallb List.map]. unfold pair_is_ByteString at 1.
  cbn [fst snd]. unfold WebIDL.to_ByteString.
  destruct (JSString.is_ByteString n); [|reflexivity].
  destruct (JSString.is_ByteString v); [|reflexivity].
  cbn [bind ret andb]. rewrite IH.
  now destruct (forallb pair_is_ByteString rest).
Qed.

Lemma WebIDL_to_record_of_strings (init : list (string * string)) :
  WebIDL.to_record (List.map JSString.pair_of_strings init) = inr init.
Proof.
  induction init as [|[n v] rest IH]; [reflexivity|].
  cbn [List.map WebIDL.to_record JSString.pair_of_strings fst snd].
  now rewrite !WebIDL_to_ByteString_of_string, IH.
Qed.

(** ** Header collections *)

Lemma Headers_name_lower (n : string) :
  Headers.is_header_name n = true ->
  Headers.is_header_name (Str.lower n) = true.
Proof.
  unfold Headers.is_header_name. rewrite Str_lower_empty.
  intros H. apply andb_true_iff in H as [Hne Hall]. rewrite Hne. simpl.
  clear Hne. unfold Str.lower.
  induction n as [|c r IH]; cbn [Str.map Str.forallb] in *; [reflexivity|].
  apply andb_true_iff in Hall as [Hc Hr].
  now rewrite (Char_lower_tchar _ Hc), (IH Hr).
Qed.

Lemma Headers_value_unforbidden (v : string) :
  Headers.is_header_value v = true -> Str.forallb unforbidden v = true.
Proof.
  unfold Headers.is_header_value. intros H.
  now apply andb_true_iff in H as [_ H].
Qed.

(** Normalizing leaves a value that passes validation as soon as the
    value holds no NUL, LF or CR. *)
Lemma Headers_normalize_valid (v : string) :
  Str.forallb unforbidden v = true ->
  Headers.is_header_value (Headers.normalize v) = true.
Proof.
  intros H. unfold Headers.is_header_value, Headers.normalize.
  repeat (apply andb_true_iff; split).
  - apply Str_first_strip_trailing.
    apply Str_first_ok_weaken with (p := fun c => negb (Char.is_http_whitespace c)).
    + intros c Hc. apply negb_true_iff in Hc. apply negb_true_iff.
      now apply Char_whitespace_tab_or_space.
    + apply Str_first_strip_leading.
  - apply Str_last_ok_weaken with (p := fun c => negb (Char.is_http_whitespace c)).
    + intros c Hc. apply negb_true_iff in Hc. apply negb_true_iff.
      now apply Char_whitespace_tab_or_space.
    + apply Str_last_strip_trailing.
  - apply Str_forallb_strip_trailing, Str_forallb_strip_leading. exact H.
Qed.

(** A normalized value is a header value exactly when it holds no
    NUL, LF or CR: it has no tab or space at its ends. *)
Lemma Headers_normalized_value (v : string) :
  Headers.is_header_value (Headers.normalize v)
  = Str.forallb unforbidden (Headers.normalize v).
Proof.
  unfold Headers.is_header_value.
  assert (Hf : Str.first_ok (fun c => negb (Char.is_tab_or_space c))
                 (Headers.normalize v) = true).
  { unfold Headers.normalize. apply Str_first_strip_trailing.
    apply Str_first_ok_weaken with (p := fun c => negb (Char.is_http_whitespace c)).
    - intros c Hc. apply negb_true_iff in Hc. apply negb_true_iff.
      now apply Char_whitespace_tab_or_space.
    - apply Str_first_strip_leading. }
  assert (Hl : Str.last_ok (fun c => negb (Char.is_tab_or_space c))
                 (Headers.normalize v) = true).
  { unfold Headers.normalize.
    apply Str_last_ok_weaken with (p := fun c => negb (Char.is_http_whitespace c)).
    - intros c Hc. apply negb_true_iff in Hc. apply negb_true_iff.
      now apply Char_whitespace_tab_or_space.
    - apply Str_last_strip_trailing. }
  now rewrite Hf, Hl.
Qed.

Lemma Str_first_ok_and (p q : ascii -> bool) (s : string) :
  Str.first_ok p s = true -> Str.forallb q s = true ->
  Str.first_ok (fun c => p c && q c) s = true.
Proof.
  destruct s as [|c r]; simpl; [reflexivity|].
  intros Hp Hq. apply andb_true_iff in Hq as [Hq _]. now rewrite Hp, Hq.
Qed.

Lemma Str_last_ok_and (p q : ascii -> bool) (s : string) :
  Str.last_ok p s = true -> Str.forallb q s = true ->
  Str.last_ok (fun c => p c && q c) s = true.
Proof.
  induction s as [|c r IH]; [reflexivity|].
  destruct r as [|c' r'].
  - simpl. intros Hp Hq. rewrite andb_true_r in Hq. now rewrite Hp, Hq.
  - intros Hp Hq. change (Str.forallb q (String c (String c' r')))
      with (q c && Str.forallb q (String c' r')) in Hq.
    apply andb_true_iff in Hq as [_ Hq]. exact (IH Hp Hq).
Qed.

(** A valid header value is its own normal form. *)
Lemma Headers_normalize_value (v : string) :
  Headers.is_header_value v = true -> Headers.normalize v = v.
Proof.
  unfold Headers.is_header_value, Headers.normalize. intros H.
  apply andb_true_iff in H as [H Hall]. apply andb_true_iff in H as [Hf Hl].
  assert (Hw : forall c,
             negb (Char.is_tab_or_space c) && negb (Char.is_value_forbidden c) = true ->
             negb (Char.is_http_whitespace c) = true).
  { intros c Hc. apply andb_true_iff in Hc as [H1 H2].
    apply negb_true_iff in H1, H2. apply negb_true_iff.
    now apply Char_forbidden_whitespace. }
  rewrite Str_strip_leading_id.
  - apply Str_strip_trailing_id.
    eapply Str_last_ok_weaken; [exact Hw|]. now apply Str_last_ok_and.
  - eapply Str_first_ok_weaken; [exact Hw|]. now apply Str_first_ok_and.
Qed.

Lemma Headers_normalize_idem (v : string) :
  Str.forallb unforbidden v = true ->
  Headers.normalize (Headers.normalize v) = Headers.normalize v.
Proof.
  intros H. now apply Headers_normalize_value, Headers_normalize_valid.
Qed.

Lemma Headers_append_ok (name value : string) (l : Headers.t) :
  Headers.is_header_name name = true ->
  Str.forallb unforbidden value = true ->
  Headers.append_header name value l
  = inr (Headers.list_append name (Headers.normalize value) l).
Proof.
  intros Hn Hv. unfold Headers.append_header.
  now rewrite Hn, (Headers_normalize_valid _ Hv).
Qed.

Lemma Headers_append_inv (name value : string) (l l' : Headers.t) :
  Headers.append_header name value l = inr l' ->
  Headers.is_header_name name = true
  /\ Headers.is_header_value (Headers.normalize value) = true
  /\ l' = Headers.list_append name (Headers.normalize value) l.
Proof.
  unfold Headers.append_header.
  destruct (Headers.is_header_name name); simpl; [|discriminate].
  destruct (Headers.is_header_value (Headers.normalize value)); simpl;
    [|discriminate].
  intros H. injection H as <-. auto.
Qed.

Lemma Headers_find_name (name : string) (l : Headers.t) (h : string * string) :
  find (fun h => Headers.name_eqb (fst h) name) l = Some h ->
  In h l /\ Str.lower (fst h) = Str.lower name.
Proof.
  intros H. apply find_some in H as [Hin Heq]. split; [assumption|].
  now apply String.eqb_eq in Heq.
Qed.

(** The name [list_append] stores differs from the given one in case
    only, and is a header name when the list is well formed. *)
Lemma Headers_list_append_spec (name value : string) (l : Headers.t) :
  exists name',
    Headers.list_append name value l = l ++ [(name', value)]
    /\ Str.lower name' = Str.lower name
    /\ (name' = name \/ In name' (List.map fst l)).
Proof.
  unfold Headers.list_append.
  destruct (find _ l) as [h|] eqn:E.
  - apply Headers_find_name in E as [Hin Heq].
    exists (fst h). repeat split; auto. right. now apply in_map.
  - exists name. auto.
Qed.

Lemma Headers_wf_app (l1 l2 : Headers.t) :
  Headers.wf (l1 ++ l2) = Headers.wf l1 && Headers.wf l2.
Proof. apply forallb_app. Qed.

Lemma Headers_wf_In (l : Headers.t) (h : string * string) :
  Headers.wf l = true -> In h l ->
  Headers.is_header_name (fst h) = true /\ Headers.is_header_value (snd h) = true.
Proof.
  intros Hwf Hin. unfold Headers.wf in Hwf. rewrite forallb_forall in Hwf.
  now apply andb_true_iff, Hwf.
Qed.

Lemma Headers_append_wf (name value : string) (l l' : Headers.t) :
  Headers.wf l = true -> Headers.append_header name value l = inr l' ->
  Headers.wf l' = true.
Proof.
  intros Hwf H. apply Headers_append_inv in H as (Hn & Hv & ->).
  destruct (Headers_list_append_spec name (Headers.normalize value) l)
    as (name' & -> & _ & Hname').
  rewrite Headers_wf_app, Hwf. simpl. rewrite Hv, !andb_true_r.
  destruct Hname' as [->|Hin]; [assumption|].
  apply in_map_iff in Hin as (h & <- & Hin).
  now apply (Headers_wf_In l h Hwf).
Qed.

Lemma Headers_fill_wf (init : list (string * string)) (l l' : Headers.t) :
  Headers.wf l = true -> Headers.fill init l = inr l' -> Headers.wf l' = true.
Proof.
  revert l. induction init as [|[n v] rest IH]; simpl; intros l Hwf H.
  - now injection H as <-.
  - destruct (Headers.append_header n v l) as [e|l1] eqn:E; simpl in H; [discriminate|].
    eapply IH; [|exact H]. eapply Headers_append_wf; eauto.
Qed.

(** Filling a new collection returns a well-formed header list. *)
Lemma Headers_fill_new_wf (init : list (string * string)) (l : Headers.t) :
  Headers.fill init Headers.new = inr l -> Headers.wf l = true.
Proof. apply Headers_fill_wf. reflexivity. Qed.

(** *** Sorting and combining *)

Lemma Headers_insert_In (x y : string) (l : list string) :
  In x (Headers.insert y l) <-> x = y \/ In x l.
Proof.
  induction l as [|z r IH]; simpl.
  - intuition.
  - destruct (String.leb y z); simpl; [intuition|].
    rewrite IH. intuition.
Qed.

Lemma Headers_sort_In (x : string) (l : list string) :
  In x (Headers.sort l) <-> In x l.
Proof.
  induction l as [|y r IH]; simpl; [reflexivity|].
  rewrite Headers_insert_In, IH. intuition.
Qed.

Lemma Headers_names_In (n : string) (l : Headers.t) :
  In n (Headers.sorted_lowercase_names l) <-> In n (lower_names l).
Proof.
  unfold Headers.sorted_lowercase_names.
  now rewrite Headers_sort_In, nodup_In.
Qed.

Lemma lower_names_lower (n : string) (l : Headers.t) :
  In n (lower_names l) -> Str.lower n = n.
Proof.
  intros H. apply in_map_iff in H as (h & <- & _). apply Str_lower_idem.
Qed.

Lemma Headers_contains_lower_names (n : string) (l : Headers.t) :
  Headers.contains n l = true <-> In (Str.lower n) (lower_names l).
Proof.
  unfold Headers.contains, lower_names. rewrite existsb_exists, in_map_iff.
  split; intros (h & H1 & H2); exists h.
  - split; [|assumption]. now apply String.eqb_eq in H2.
  - split; [assumption|]. now apply String.eqb_eq.
Qed.

Lemma Headers_values_of_In (n v : string) (l : Headers.t) :
  In v (Headers.values_of n l) -> exists n', In (n', v) l.
Proof.
  unfold Headers.values_of. intros H.
  apply in_map_iff in H as ([n' v'] & <- & H).
  apply filter_In in H as [H _]. now exists n'.
Qed.

Lemma concat_unforbidden (vs : list string) :
  (forall v, In v vs -> Str.forallb unforbidden v = true) ->
  Str.forallb unforbidden (String.concat ", " vs) = true.
Proof.
  induction vs as [|v r IH]; intros H; [reflexivity|].
  destruct r as [|v' r'].
  - apply H. now left.
  - change (String.concat ", " (v :: v' :: r'))
      with (v ++ ", " ++ String.concat ", " (v' :: r'))%string.
    rewrite !Str_forallb_app, (H v (or_introl eq_refl)), IH; [reflexivity|].
    intros w Hw. apply H. now right.
Qed.

(** An entry that entries() yields: its name is one of the lowercased
    names of the list, and on a well-formed list it passes [append]. *)
Lemma Headers_entries_name (n v : string) (l : Headers.t) :
  In (n, v) (Headers.entries l) -> In n (lower_names l).
Proof.
  unfold Headers.entries, Headers.sort_and_combine. intros H.
  apply in_flat_map in H as (name & Hname & H).
  apply Headers_names_In in Hname.
  destruct (name =? "set-cookie").
  - apply in_map_iff in H as (w & E & _). now injection E as <- _.
  - destruct (Headers.get name l); [|contradiction].
    destruct H as [E|[]]. now injection E as <- _.
Qed.

Lemma Headers_entries_value (n v : string) (l : Headers.t) :
  Headers.wf l = true -> In (n, v) (Headers.entries l) ->
  Str.forallb unforbidden v = true.
Proof.
  intros Hwf H.
  assert (Hvals : forall name w, In w (Headers.values_of name l) ->
                                 Str.forallb unforbidden w = true).
  { intros name w Hw. apply Headers_values_of_In in Hw as (n' & Hin).
    apply Headers_value_unforbidden.
    now apply (Headers_wf_In l (n', w) Hwf). }
  unfold Headers.entries, Headers.sort_and_combine in H.
  apply in_flat_map in H as (name & _ & H).
  destruct (name =? "set-cookie").
  - apply in_map_iff in H as (w & E & Hw). injection E as _ <-.
    now apply (Hvals name).
  - unfold Headers.get in H. destruct (Headers.contains name l); [|contradiction].
    destruct H as [E|[]]. injection E as _ <-.
    apply concat_unforbidden. apply Hvals.
Qed.

Lemma Headers_entries_valid (n v : string) (l : Headers.t) :
  Headers.wf l = true -> In (n, v) (Headers.entries l) ->
  Headers.is_header_name n = true /\ Str.forallb unforbidden v = true.
Proof.
  intros Hwf H. split; [|eapply Headers_entries_value; eauto].
  apply Headers_entries_name in H.
  apply in_map_iff in H as (h & <- & Hin).
  apply Headers_name_lower. now apply (Headers_wf_In l h Hwf).
Qed.

(** Every lowercased name of the list other than set-cookie has its
    entry, carrying the combined value. *)
Lemma Headers_entries_has (n : string) (l : Headers.t) :
  In n (lower_names l) -> n <> "set-cookie" ->
  exists v, Headers.get n l = Some v /\ In (n, v) (Headers.entries l).
Proof.
  intros Hin Hsc.
  assert (Hc : Headers.contains n l = true).
  { apply Headers_contains_lower_names.
    now rewrite (lower_names_lower n l Hin). }
  unfold Headers.get. rewrite Hc. eexists; split; [reflexivity|].
  unfold Headers.entries, Headers.sort_and_combine.
  apply in_flat_map. exists n. split; [now apply Headers_names_In|].
  apply String.eqb_neq in Hsc. rewrite Hsc.
  unfold Headers.get. rewrite Hc. now left.
Qed.

(** ** The header builder *)

(** The method on byte strings is the appending of a header. *)
Lemma Headers_append_bytes (name value : string) (l : Headers.t) :
  Headers.append (JSString.of_string name) (JSString.of_string value) l
  = Headers.append_header name value l.
Proof.
  unfold Headers.append. now rewrite !WebIDL_to_ByteString_of_string.
Qed.

(** The method accepts a name and a value exactly when both convert
    and pass the validation. *)
Lemma Headers_append_eq (name value : JSString.t) (l : Headers.t) :
  Headers.append name value l
  = if name_accepted name && value_accepted value
    then inr (Headers.list_append (JSString.bytes name)
                (Headers.normalize (JSString.bytes value)) l)
    else inl TypeError.
Proof.
  unfold Headers.append, WebIDL.to_ByteString, name_accepted, value_accepted.
  destruct (JSString.is_ByteString name); [|reflexivity].
  destruct (JSString.is_ByteString value); cbn [bind ret andb].
  - unfold Headers.append_header.
    destruct (Headers.is_header_name (JSString.bytes name)); [|reflexivity].
    now destruct (Headers.is_header_value
                    (Headers.normalize (JSString.bytes value))).
  - now rewrite andb_false_r.
Qed.

(** A value is accepted exactly when it is a ByteString that,
    surrounding whitespace stripped, holds no NUL, LF or CR. *)
Lemma value_accepted_spec (v : JSString.t) :
  value_accepted v = true
  <-> JSString.is_ByteString v = true
      /\ Str.forallb unforbidden (Headers.normalize (JSString.bytes v)) = true.
Proof.
  unfold value_accepted. rewrite Headers_normalized_value.
  apply andb_true_iff.
Qed.

Lemma merge_custom_cons (n v : string) (rest : list (string * string))
    (h : Headers.t) :
  merge_custom ((n, v) :: rest) h
  = if n =? "x-goog-api-key" then
      inl (GoogleGenerativeAIRequestInputError (CannotSetReserved n))
    else if n =? "x-goog-api-client" then
      inl (GoogleGenerativeAIRequestInputError (OnlyViaApiClient n))
    else
      h' <- Headers.append_header n v h ;; merge_custom rest h'.
Proof.
  cbn [merge_custom]. now rewrite Headers_append_bytes.
Qed.

Lemma Headers_list_append_lower (name value : string) (l : Headers.t) :
  all_lower l -> Str.lower name = name ->
  Headers.list_append name value l = l ++ [(name, value)].
Proof.
  intros Hl Hn. unfold Headers.list_append.
  destruct (find _ l) as [h|] eqn:E; [|reflexivity].
  apply Headers_find_name in E as [Hin Heq].
  now rewrite <- (Hl h Hin), Heq, Hn.
Qed.

Lemma all_lower_app (l1 l2 : list (string * string)) :
  all_lower l1 -> all_lower l2 -> all_lower (l1 ++ l2).
Proof.
  intros H1 H2 h Hin. apply in_app_or in Hin as [Hin|Hin]; auto.
Qed.

Lemma all_lower_entries (l : Headers.t) : all_lower (Headers.entries l).
Proof.
  intros [n v] Hin. simpl. apply Headers_entries_name in Hin.
  eapply lower_names_lower; eauto.
Qed.

(** The loop throws an input error as soon as one of the entries has a
    reserved name, whatever comes before it, provided the entries
    before it pass [append], as the entries of a header list do. *)
Lemma merge_custom_reserved (E : list (string * string)) (h : Headers.t) :
  (forall n v, In (n, v) E ->
     Headers.is_header_name n = true /\ Str.forallb unforbidden v = true) ->
  (exists n v, In (n, v) E /\ reserved n = true) ->
  is_input_error (merge_custom E h) = true.
Proof.
  revert h. induction E as [|[n v] rest IH]; intros h Hvalid (n0 & v0 & Hin & Hres).
  - contradiction.
  - rewrite merge_custom_cons.
    destruct (n =? "x-goog-api-key") eqn:Ek; [reflexivity|].
    destruct (n =? "x-goog-api-client") eqn:Ec; [reflexivity|].
    destruct (Hvalid n v (or_introl eq_refl)) as [Hn Hv].
    rewrite (Headers_append_ok n v h Hn Hv). simpl.
    apply IH.
    + intros n' v' H'. apply Hvalid. now right.
    + destruct Hin as [E|Hin].
      * injection E as -> ->. unfold reserved in Hres.
        rewrite Ek, Ec in Hres. discriminate.
      * now exists n0, v0.
Qed.

(** When the loop returns, it met no reserved name and appended every
    entry, value normalized, behind the headers it started from. *)
Lemma merge_custom_inv (E : list (string * string)) (h h' : Headers.t) :
  all_lower h -> all_lower E ->
  merge_custom E h = inr h' ->
  h' = h ++ List.map normalized E
  /\ forall n v, In (n, v) E -> reserved n = false.
Proof.
  revert h. induction E as [|[n v] rest IH]; intros h Hh HE H.
  - simpl in H. injection H as <-. rewrite app_nil_r. split; [reflexivity|].
    intros n v [].
  - rewrite merge_custom_cons in H.
    destruct (n =? "x-goog-api-key") eqn:Ek; [discriminate|].
    destruct (n =? "x-goog-api-client") eqn:Ec; [discriminate|].
    destruct (Headers.append_header n v h) as [e|h1] eqn:Ea; simpl in H;
      [discriminate|].
    apply Headers_append_inv in Ea as (_ & _ & ->).
    assert (Hn : Str.lower n = n) by exact (HE (n, v) (or_introl eq_refl)).
    rewrite (Headers_list_append_lower n _ h Hh Hn) in H.
    apply IH in H as [-> Hres].
    + split.
      * now rewrite <- app_assoc.
      * intros n' v' [E'|Hin]; [|exact (Hres n' v' Hin)].
        injection E' as <- <-. unfold reserved. now rewrite Ek, Ec.
    + apply all_lower_app; [assumption|]. intros x [<-|[]]. exact Hn.
    + intros x Hx. apply HE. now right.
Qed.

(** The loop returns when every entry passes [append] and none has a
    reserved name. *)
Lemma merge_custom_ok (E : list (string * string)) (h : Headers.t) :
  (forall n v, In (n, v) E ->
     Headers.is_header_name n = true /\ Str.forallb unforbidden v = true) ->
  (forall n v, In (n, v) E -> reserved n = false) ->
  exists h', merge_custom E h = inr h'.
Proof.
  revert h. induction E as [|[n v] rest IH]; intros h Hvalid Hres.
  - now exists h.
  - rewrite merge_custom_cons.
    pose proof (Hres n v (or_introl eq_refl)) as Hr.
    unfold reserved in Hr. apply orb_false_iff in Hr as [Ek Ec].
    rewrite Ek, Ec.
    destruct (Hvalid n v (or_introl eq_refl)) as [Hn Hv].
    rewrite (Headers_append_ok n v h Hn Hv). simpl.
    apply IH; intros n' v' H';
      [apply Hvalid|apply (Hres n' v')]; now right.
Qed.

Lemma Headers_fill_names (init : list (string * string)) (l l' : Headers.t) :
  Headers.fill init l = inr l' ->
  lower_names l' = lower_names l ++ lower_names init.
Proof.
  revert l. induction init as [|[n v] rest IH]; simpl; intros l H.
  - injection H as <-. now rewrite app_nil_r.
  - destruct (Headers.append_header n v l) as [e|l1] eqn:E; simpl in H; [discriminate|].
    apply Headers_append_inv in E as (_ & _ & ->).
    destruct (Headers_list_append_spec n (Headers.normalize v) l)
      as (n' & El & Hn' & _).
    rewrite (IH _ H), El. unfold lower_names.
    rewrite map_app, <- app_assoc. simpl. now rewrite Hn'.
Qed.

Lemma lower_names_map_fst (l : Headers.t) :
  lower_names l = List.map Str.lower (List.map fst l).
Proof. unfold lower_names. now rewrite map_map. Qed.

Section HeaderBuilder.

Context {collaborators : Collaborators}.

Lemma getHeaders_identity (url : ServerRequestUrl) :
  getHeaders url =
  if identity_valid url then
    match optional_chain (requestOptions url) customHeaders with
    | Some custom =>
        c <- to_Headers custom ;;
        merge_custom (Headers.entries c) (identity_headers url)
    | None => ret (identity_headers url)
    end
  else throw TypeError.
Proof.
  unfold getHeaders, identity_valid, identity_headers.
  rewrite Headers_append_eq.
  change (name_accepted (JSString.of_string "x-goog-api-client")) with true.
  cbn [andb].
  destruct (value_accepted (getClientHeaders (requestOptions url)));
    [|reflexivity].
  cbn [bind ret andb]. rewrite Headers_append_eq.
  change (name_accepted (JSString.of_string "x-goog-api-key")) with true.
  cbn [andb].
  destruct (value_accepted (apiKey url)); reflexivity.
Qed.

Lemma all_lower_identity (url : ServerRequestUrl) :
  all_lower (identity_headers url).
Proof. intros h [<-|[<-|[]]]; reflexivity. Qed.

(** `new Headers(init)`: the record conversion, then the filling. *)
Lemma Headers_of_init_eq (init : list (JSString.t * JSString.t)) :
  Headers.of_init init
  = if forallb pair_is_ByteString init
    then Headers.fill (List.map JSString.pair_bytes init) Headers.new
    else inl TypeError.
Proof.
  unfold Headers.of_init. rewrite WebIDL_to_record_eq.
  now destruct (forallb pair_is_ByteString init).
Qed.

(** What `new Headers(init)` returns: every key and value of [init]
    was a ByteString, and the filling returned it. *)
Lemma Headers_of_init_inv (init : list (JSString.t * JSString.t))
    (l : Headers.t) :
  Headers.of_init init = inr l ->
  forallb pair_is_ByteString init = true
  /\ Headers.fill (List.map JSString.pair_bytes init) Headers.new = inr l.
Proof.
  rewrite Headers_of_init_eq.
  destruct (forallb pair_is_ByteString init); [auto|discriminate].
Qed.

Lemma map_bytes_of_string (l : list string) :
  List.map JSString.bytes (List.map JSString.of_string l) = l.
Proof.
  induction l as [|x r IH]; [reflexivity|].
  cbn [List.map]. now rewrite JSString_bytes_of_string, IH.
Qed.

(** The converted customHeaders: a well-formed header list whose
    lowercased names are those of the names supplied. *)
Lemma to_Headers_inv (custom : CustomHeaders) (c : Headers.t) :
  CustomHeaders_wf custom = true ->
  to_Headers custom = inr c ->
  Headers.wf c = true
  /\ lower_names c
     = List.map Str.lower (List.map JSString.bytes (custom_names custom)).
Proof.
  destruct custom as [h|init]; simpl; intros Hwf H.
  - injection H as <-. split; [assumption|].
    rewrite <- (map_map fst JSString.of_string), map_bytes_of_string.
    apply lower_names_map_fst.
  - destruct (Headers.of_init init) as [e|l] eqn:E; [discriminate|].
    injection H as <-. apply Headers_of_init_inv in E as [_ E].
    split; [now apply Headers_fill_new_wf in E|].
    apply Headers_fill_names in E. rewrite E. simpl.
    rewrite lower_names_map_fst. f_equal.
    rewrite !map_map. reflexivity.
Qed.

(** When the conversion returns, every name supplied was a
    ByteString. *)
Lemma to_Headers_names (custom : CustomHeaders) (c : Headers.t) (n : JSString.t) :
  to_Headers custom = inr c ->
  In n (custom_names custom) ->
  JSString.is_ByteString n = true.
Proof.
  destruct custom as [h|init]; simpl; intros H Hin.
  - apply in_map_iff in Hin as (e & <- & _).
    apply JSString_of_string_ByteString.
  - destruct (Headers.of_init init) as [e|l] eqn:E; [discriminate|].
    apply Headers_of_init_inv in E as [E _].
    rewrite forallb_forall in E.
    apply in_map_iff in Hin as (p & <- & Hp).
    specialize (E p Hp). unfold pair_is_ByteString in E.
    now apply andb_true_iff in E as [E _].
Qed.

(** A failed conversion surfaces as an input error. *)
Lemma to_Headers_error (custom : CustomHeaders) (e : exn) :
  to_Headers custom = inl e ->
  exists m, e = GoogleGenerativeAIRequestInputError m.
Proof.
  destruct custom as [h|init]; simpl; [discriminate|].
  destruct (Headers.of_init init); [|discriminate].
  intros H. injection H as <-. eauto.
Qed.

(** A supplied name that is reserved once lowercased stops
    getHeaders with an input error. *)
Lemma getHeaders_rejects (url : ServerRequestUrl) (opts : RequestOptions)
    (custom : CustomHeaders) (n : string) :
  requestOptions url = Some opts ->
  customHeaders opts = Some custom ->
  CustomHeaders_wf custom = true ->
  identity_valid url = true ->
  In (JSString.of_string n) (custom_names custom) ->
  reserved (Str.lower n) = true ->
  is_input_error (getHeaders url) = true.
Proof.
  intros Hopts Hcustom Hwf Hid Hin Hres.
  rewrite getHeaders_identity, Hid, Hopts. simpl. rewrite Hcustom.
  destruct (to_Headers custom) as [e|c] eqn:E.
  - apply to_Headers_error in E as [m ->]. reflexivity.
  - simpl. apply to_Headers_inv in E as [Hc Hnames]; [|assumption].
    apply merge_custom_reserved.
    + intros n' v' H'. eapply Headers_entries_valid; eauto.
    + assert (Hl : In (Str.lower n) (lower_names c)).
      { rewrite Hnames. apply in_map.
        rewrite <- (JSString_bytes_of_string n). now apply in_map. }
      destruct (Headers_entries_has (Str.lower n) c Hl) as (v & _ & Hv).
      * intros Heq. rewrite Heq in Hres. discriminate.
      * now exists (Str.lower n), v.
Qed.

End HeaderBuilder.

Lemma reserved_lower (n : string) : reserved n = true -> Str.lower n = n.
Proof.
  unfold reserved. intros H. apply orb_true_iff in H as [H|H];
    apply String.eqb_eq in H; subst n; reflexivity.
Qed.

Lemma is_input_error_inv {A} (r : result A) :
  is_input_error r = true ->
  exists m, r = inl (GoogleGenerativeAIRequestInputError m).
Proof.
  destruct r as [[|m]|a]; simpl; try discriminate. intros _. now exists m.
Qed.

(** Entries without a reserved name add nothing under a reserved name. *)
Lemma filter_reserved_nil (E : list (string * string)) (r : string) :
  all_lower E ->
  (forall n v, In (n, v) E -> reserved n = false) ->
  reserved r = true ->
  filter (fun h => Headers.name_eqb (fst h) r) (List.map normalized E) = [].
Proof.
  intros Hl Hres Hr. induction E as [|[n v] rest IH]; [reflexivity|].
  cbn [List.map filter normalized fst snd].
  assert (Hn : Headers.name_eqb n r = false).
  { unfold Headers.name_eqb.
    pose proof (Hl (n, v) (or_introl eq_refl)) as Hn. simpl in Hn.
    rewrite Hn, (reserved_lower r Hr). apply String.eqb_neq. intros ->.
    rewrite (Hres r v (or_introl eq_refl)) in Hr. discriminate. }
  rewrite Hn. apply IH.
  - intros h Hh. apply Hl. now right.
  - intros n' v' H'. apply (Hres n' v'). now right.
Qed.

Lemma Headers_fill_Forall2 (init : list (string * string)) (l l' : Headers.t) :
  Headers.fill init l = inr l' ->
  exists t, l' = l ++ t /\ Forall2 filled init t.
Proof.
  revert l. induction init as [|[n v] rest IH]; simpl; intros l H.
  - injection H as <-. exists []. now rewrite app_nil_r.
  - destruct (Headers.append_header n v l) as [e|l1] eqn:E; simpl in H; [discriminate|].
    apply Headers_append_inv in E as (_ & _ & ->).
    destruct (Headers_list_append_spec n (Headers.normalize v) l)
      as (n' & El & Hn' & _).
    rewrite El in H. apply IH in H as (t & -> & Ht).
    exists ((n', Headers.normalize v) :: t). split.
    + now rewrite <- app_assoc.
    + constructor; [now split|assumption].
Qed.

Lemma Forall2_filled_filter (n : string) (a b : list (string * string)) :
  Forall2 filled a b ->
  Forall2 filled
    (filter (fun h => Headers.name_eqb (fst h) n) a)
    (filter (fun h => Headers.name_eqb (fst h) n) b).
Proof.
  induction 1 as [|p q a b [Hn Hv] _ IH]; cbn [filter]; [constructor|].
  assert (E : Headers.name_eqb (fst q) n = Headers.name_eqb (fst p) n).
  { unfold Headers.name_eqb. now rewrite Hn. }
  rewrite E. destruct (Headers.name_eqb (fst p) n); [|assumption].
  constructor; [now split|assumption].
Qed.

Lemma Headers_values_of_lower (n : string) (l : Headers.t) :
  Headers.values_of (Str.lower n) l = Headers.values_of n l.
Proof.
  unfold Headers.values_of. f_equal. apply filter_ext. intros h.
  unfold Headers.name_eqb. now rewrite Str_lower_idem.
Qed.

Lemma filter_map_comm {A B} (f : B -> bool) (g : A -> B) (l : list A) :
  filter f (List.map g l) = List.map g (filter (fun a => f (g a)) l).
Proof.
  induction l as [|a r IH]; [reflexivity|].
  cbn [List.map filter]. rewrite IH. now destruct (f (g a)).
Qed.

(** A name a plain object supplies once (no other key equals it up to
    case) is an entry of the converted collection, with the value it
    was given, normalized. *)
Lemma Headers_entries_single (init : list (string * string)) (c : Headers.t)
    (n v : string) :
  Headers.fill init Headers.new = inr c ->
  filter (fun h => Headers.name_eqb (fst h) n) init = [(n, v)] ->
  In (Str.lower n, Headers.normalize v) (Headers.entries c)
  /\ Headers.is_header_value (Headers.normalize v) = true.
Proof.
  intros Hc Hone.
  pose proof (Headers_fill_new_wf init c Hc) as Hwf.
  destruct (Headers_fill_Forall2 init [] c Hc) as (t & -> & Ht).
  simpl in *.
  apply (Forall2_filled_filter n) in Ht. rewrite Hone in Ht.
  inversion Ht as [|p q a b [Hq1 Hq2] Hrest E1 E2]; subst.
  inversion Hrest; subst. destruct q as [n' v']. simpl in *. subst v'.
  assert (Hin : In (n', Headers.normalize v) t).
  { eapply (proj1 (filter_In _ _ _)). rewrite <- E2. now left. }
  assert (Hvals : Headers.values_of n t = [Headers.normalize v]).
  { unfold Headers.values_of. now rewrite <- E2. }
  assert (Hl : In (Str.lower n) (lower_names t)).
  { unfold lower_names. apply in_map_iff. exists (n', Headers.normalize v).
    now split. }
  split; [|now apply (Headers_wf_In t _ Hwf Hin)].
  unfold Headers.entries, Headers.sort_and_combine. apply in_flat_map.
  exists (Str.lower n). split; [now apply Headers_names_In|].
  destruct (Str.lower n =? "set-cookie").
  - rewrite Headers_values_of_lower, Hvals. now left.
  - unfold Headers.get.
    rewrite (proj2 (Headers_contains_lower_names (Str.lower n) t)).
    + rewrite Headers_values_of_lower, Hvals. now left.
    + now rewrite Str_lower_idem.
Qed.

Section HeaderBuilderResults.

Context {collaborators : Collaborators}.

(** Under a reserved name the result holds the identity value alone. *)
Lemma identity_get (url : ServerRequestUrl) (E : list (string * string)) :
  all_lower E ->
  (forall n v, In (n, v) E -> reserved n = false) ->
  Headers.get "x-goog-api-client" (identity_headers url ++ List.map normalized E)
  = Some (Headers.normalize
            (JSString.bytes (getClientHeaders (requestOptions url))))
  /\ Headers.get "x-goog-api-key" (identity_headers url ++ List.map normalized E)
     = Some (Headers.normalize (JSString.bytes (apiKey url))).
Proof.
  intros Hl Hres. unfold Headers.get, Headers.contains, Headers.values_of.
  split; simpl; rewrite filter_reserved_nil; auto.
Qed.

Lemma converted_wf (url : ServerRequestUrl) (c : Headers.t) :
  custom_wf url = true -> converted url = inr c -> Headers.wf c = true.
Proof.
  unfold custom_wf, converted.
  destruct (optional_chain (requestOptions url) customHeaders) as [custom|].
  - intros Hwf H. now apply to_Headers_inv in H.
  - intros _ H. now injection H as <-.
Qed.

Lemma getHeaders_converted (url : ServerRequestUrl) :
  getHeaders url =
  if identity_valid url then
    c <- converted url ;;
    merge_custom (Headers.entries c) (identity_headers url)
  else throw TypeError.
Proof.
  rewrite getHeaders_identity. unfold converted.
  destruct (identity_valid url); [|reflexivity].
  now destruct (optional_chain (requestOptions url) customHeaders).
Qed.

(** What getHeaders returns, whenever it returns. *)
Lemma getHeaders_inv (url : ServerRequestUrl) (headers : Headers.t) :
  getHeaders url = inr headers ->
  exists c,
    converted url = inr c
    /\ identity_valid url = true
    /\ headers = identity_headers url ++ List.map normalized (Headers.entries c)
    /\ forall n v, In (n, v) (Headers.entries c) -> reserved n = false.
Proof.
  rewrite getHeaders_converted.
  destruct (identity_valid url); [|discriminate].
  destruct (converted url) as [e|c]; [discriminate|]. simpl.
  intros H. apply merge_custom_inv in H as [-> Hres].
  - exists c. auto.
  - apply all_lower_identity.
  - apply all_lower_entries.
Qed.

End HeaderBuilderResults.

(** ** Claims on the header builder *)

(** C1, amended.  Call the client string and the API key valid when
    Headers.append accepts both: each is a ByteString (no code unit
    above 255) that holds no NUL, LF or CR once surrounding whitespace
    is stripped.  For every URL object whose client string and API key
    are valid, and every customHeaders supplied in its requestOptions:
    if a custom header name equals a reserved name (x-goog-api-key or
    x-goog-api-client), getHeaders throws a
    GoogleGenerativeAIRequestInputError and returns no header
    collection.  When the client string or the API key is not valid,
    getHeaders throws the platform's TypeError instead; in either case
    nothing is returned. *)
Theorem C1_reserved_name_rejected {collaborators : Collaborators}
    (url : ServerRequestUrl) (opts : RequestOptions) (custom : CustomHeaders) :
  requestOptions url = Some opts ->
  customHeaders opts = Some custom ->
  CustomHeaders_wf custom = true ->
  (exists n, In (JSString.of_string n) (custom_names custom)
             /\ reserved n = true) ->
  (identity_valid url = true <->
   forall v, In v [getClientHeaders (requestOptions url); apiKey url] ->
     JSString.is_ByteString v = true
     /\ Str.forallb unforbidden (Headers.normalize (JSString.bytes v)) = true)
  /\ exists e,
       getHeaders url = inl e
       /\ (identity_valid url = true ->
           exists m, e = GoogleGenerativeAIRequestInputError m)
       /\ (identity_valid url = false -> e = TypeError).
Proof.
  intros Hopts Hcustom Hwf (n & Hin & Hres). split.
  - unfold identity_valid. rewrite andb_true_iff, !value_accepted_spec. split.
    + intros [Hc Hk] v [<-|[<-|[]]]; assumption.
    + intros H. split; apply H; [now left|now right; left].
  - destruct (identity_valid url) eqn:Hid.
    + assert (Hn : reserved (Str.lower n) = true)
        by now rewrite (reserved_lower n Hres).
      pose proof (getHeaders_rejects url opts custom n Hopts Hcustom Hwf Hid
                    Hin Hn) as H.
      apply is_input_error_inv in H as [m H].
      exists (GoogleGenerativeAIRequestInputError m).
      split; [assumption|]. split; [intros _; now exists m|discriminate].
    + exists TypeError. rewrite getHeaders_identity, Hid.
      split; [reflexivity|]. split; [discriminate|reflexivity].
Qed.

(** C7, amended.  For every URL object whose client string and API key
    are valid header values and whose customHeaders (if any) convert to
    a header collection and supply no name that is reserved once
    lowercased, getHeaders returns a collection in which
    x-goog-api-client is the client string and x-goog-api-key the
    apiKey of the URL object, and which contains every entry of the
    custom collection; values are stored with surrounding whitespace
    stripped.  In particular a pair (n, v) that a plain object supplies
    under a name no other key shares is contained as lowercase n with
    the stripped v. *)
Theorem C7_headers_returned {collaborators : Collaborators}
    (url : ServerRequestUrl) (c : Headers.t) :
  identity_valid url = true ->
  custom_wf url = true ->
  converted url = inr c ->
  (forall n, In n (lower_names c) -> reserved n = false) ->
  exists headers,
    getHeaders url = inr headers
    /\ Headers.get "x-goog-api-client" headers
       = Some (Headers.normalize
                 (JSString.bytes (getClientHeaders (requestOptions url))))
    /\ Headers.get "x-goog-api-key" headers
       = Some (Headers.normalize (JSString.bytes (apiKey url)))
    /\ (forall n v, In (n, v) (Headers.entries c) ->
          In (n, Headers.normalize v) headers)
    /\ (forall init n v,
          optional_chain (requestOptions url) customHeaders
          = Some (PlainObject init) ->
          filter (fun h => Headers.name_eqb (JSString.bytes (fst h)) n) init
          = [(JSString.of_string n, JSString.of_string v)] ->
          In (Str.lower n, Headers.normalize v) headers).
Proof.
  intros Hid Hwf Hc Hnames.
  pose proof (converted_wf url c Hwf Hc) as Hcwf.
  assert (Hres : forall n v, In (n, v) (Headers.entries c) -> reserved n = false).
  { intros n v H. apply Hnames. eapply Headers_entries_name; eauto. }
  destruct (merge_custom_ok (Headers.entries c) (identity_headers url))
    as [headers Hm].
  { intros n v H. eapply Headers_entries_valid; eauto. }
  { exact Hres. }
  exists headers.
  assert (Hg : getHeaders url = inr headers).
  { rewrite getHeaders_converted, Hid, Hc. exact Hm. }
  apply merge_custom_inv in Hm as [-> _];
    [|apply all_lower_identity|apply all_lower_entries].
  destruct (identity_get url (Headers.entries c) (all_lower_entries c) Hres)
    as [Hclient Hkey].
  assert (Hentries : forall n v, In (n, v) (Headers.entries c) ->
            In (n, Headers.normalize v)
               (identity_headers url ++ List.map normalized (Headers.entries c))).
  { intros n v H. apply in_or_app. right.
    change (n, Headers.normalize v) with (normalized (n, v)). now apply in_map. }
  repeat split; try assumption.
  intros init n v Hinit Hone.
  unfold converted in Hc. rewrite Hinit in Hc. simpl in Hc.
  destruct (Headers.of_init init) as [e|c'] eqn:E; [discriminate|].
  injection Hc as ->. apply Headers_of_init_inv in E as [_ E].
  assert (Hone' : filter (fun h => Headers.name_eqb (fst h) n)
                    (List.map JSString.pair_bytes init) = [(n, v)]).
  { rewrite filter_map_comm. cbn [JSString.pair_bytes fst]. rewrite Hone.
    cbn [List.map]. unfold JSString.pair_bytes. cbn [fst snd].
    now rewrite !JSString_bytes_of_string. }
  destruct (Headers_entries_single _ c n v E Hone') as [Hin Hv].
  rewrite <- (Headers_normalize_value _ Hv). now apply Hentries.
Qed.

(** C10, amended.  For every URL object whose client string and API
    key are valid header values: a customHeaders name that is a case
    variant of x-goog-api-key or x-goog-api-client (it equals one of
    them once lowercased) makes getHeaders throw a
    GoogleGenerativeAIRequestInputError.  When the client string or the
    API key is no valid header value, the platform's TypeError is
    thrown instead.  Whenever getHeaders returns, no supplied name was
    such a variant, and the two reserved names carry the API key and
    the client string alone. *)
Theorem C10_case_variants_rejected {collaborators : Collaborators}
    (url : ServerRequestUrl) (opts : RequestOptions) (custom : CustomHeaders) :
  requestOptions url = Some opts ->
  customHeaders opts = Some custom ->
  CustomHeaders_wf custom = true ->
  (forall n, In (JSString.of_string n) (custom_names custom) ->
     reserved (Str.lower n) = true ->
     exists e,
       getHeaders url = inl e
       /\ (identity_valid url = true ->
           exists m, e = GoogleGenerativeAIRequestInputError m)
       /\ (identity_valid url = false -> e = TypeError))
  /\ (forall headers, getHeaders url = inr headers ->
        (forall n, In (JSString.of_string n) (custom_names custom) ->
           reserved (Str.lower n) = false)
        /\ Headers.get "x-goog-api-key" headers
           = Some (Headers.normalize (JSString.bytes (apiKey url)))
        /\ Headers.get "x-goog-api-client" headers
           = Some (Headers.normalize
                     (JSString.bytes (getClientHeaders (requestOptions url))))).
Proof.
  intros Hopts Hcustom Hwf.
  assert (Hrej : forall n, In (JSString.of_string n) (custom_names custom) ->
            reserved (Str.lower n) = true ->
            exists e,
              getHeaders url = inl e
              /\ (identity_valid url = true ->
                  exists m, e = GoogleGenerativeAIRequestInputError m)
              /\ (identity_valid url = false -> e = TypeError)).
  { intros n Hin Hres. destruct (identity_valid url) eqn:Hid.
    - pose proof (getHeaders_rejects url opts custom n Hopts Hcustom Hwf Hid
                    Hin Hres) as H.
      apply is_input_error_inv in H as [m H].
      exists (GoogleGenerativeAIRequestInputError m).
      split; [assumption|]. split; [intros _; now exists m|discriminate].
    - exists TypeError. rewrite getHeaders_identity, Hid.
      split; [reflexivity|]. split; [discriminate|reflexivity]. }
  split; [exact Hrej|].
  intros headers Hg. split.
  - intros n Hin. destruct (reserved (Str.lower n)) eqn:E; [|reflexivity].
    destruct (Hrej n Hin E) as (e & He & _). rewrite He in Hg. discriminate.
  - apply getHeaders_inv in Hg as (c & _ & _ & -> & Hres).
    destruct (identity_get url (Headers.entries c) (all_lower_entries c) Hres).
    now split.
Qed.

(** ** The URL classes *)

Lemma form_serialize_snoc (l : list (string * string)) (p : string * string) :
  URL.form_serialize (l ++ [p])
  = ((if Str.is_empty (URL.form_serialize l) then ""
      else URL.form_serialize l ++ "&") ++ URL.form_pair p)%string.
Proof.
  unfold URL.form_serialize. rewrite fold_left_app. simpl.
  now destruct (fold_left _ l "").
Qed.

Lemma form_pair_not_empty (p : string * string) (s : string) :
  Str.is_empty (s ++ URL.form_pair p) = false.
Proof.
  unfold URL.form_pair. destruct s as [|c r]; [|reflexivity]. simpl.
  now destruct (URL.form_encode (fst p)).
Qed.

Lemma form_serialize_snoc_not_empty (l : list (string * string))
    (p : string * string) :
  Str.is_empty (URL.form_serialize (l ++ [p])) = false.
Proof. rewrite form_serialize_snoc. apply form_pair_not_empty. Qed.

Lemma form_encode_safe (s : string) :
  Str.forallb form_safe s = true -> URL.form_encode s = s.
Proof.
  induction s as [|c r IH]; simpl; [reflexivity|].
  intros H. apply andb_true_iff in H as [Hc Hr].
  unfold URL.form_encode_char. unfold form_safe in Hc. rewrite Hc. simpl.
  now rewrite (IH Hr).
Qed.

Lemma searchParams_append_spec (name value : string) (u : URL.t) :
  URL.searchParams (URL.searchParams_append name value u)
  = URL.searchParams u ++ [(name, value)]
  /\ URL.query (URL.searchParams_append name value u)
     = Some (URL.form_serialize (URL.searchParams u ++ [(name, value)])).
Proof.
  unfold URL.searchParams_append, URL.update. simpl.
  now rewrite form_serialize_snoc_not_empty.
Qed.

Section UrlClasses.

Context {platform : Platform} {collaborators : Collaborators}.

Lemma mutate_initialized (m : mutation) (this : ServerRequestUrl) (u : URL.t) :
  _url this = Some u ->
  exists this' u', mutate m this = inr this' /\ _url this' = Some u'.
Proof.
  intros H. destruct m; simpl; unfold appendPath, appendParam, the_url;
    rewrite H; simpl; eexists; eexists; split; reflexivity.
Qed.

Lemma mutate_all_initialized (ms : list mutation) (this : ServerRequestUrl)
    (u : URL.t) :
  _url this = Some u ->
  exists this' u', mutate_all ms this = inr this' /\ _url this' = Some u'.
Proof.
  revert this u. induction ms as [|m rest IH]; intros this u H; simpl.
  - now exists this, u.
  - destruct (mutate_initialized m this u H) as (this1 & u1 & -> & H1).
    simpl. exact (IH this1 u1 H1).
Qed.

Lemma new_CachedContentUrl_inv (task : RpcTask) (apiKey : JSString.t)
    (opts : option RequestOptions) (this : ServerRequestUrl) :
  new_CachedContentUrl task apiKey opts = inr this ->
  exists u, URL_parse (cachedContent_initialUrl opts) = Some u
            /\ this = mkServerRequestUrl task apiKey opts (Some u).
Proof.
  unfold new_CachedContentUrl, new_URL.
  destruct (URL_parse (cachedContent_initialUrl opts)) as [u|];
    simpl; [|discriminate].
  intros H. injection H as <-. now exists u.
Qed.

Lemma new_FilesRequestUrl_inv (task : RpcTask) (apiKey : JSString.t)
    (opts : option RequestOptions) (this : ServerRequestUrl) :
  new_FilesRequestUrl task apiKey opts = inr this ->
  exists u, URL_parse (files_initialUrl task opts) = Some u
            /\ this = mkServerRequestUrl task apiKey opts (Some u).
Proof.
  unfold new_FilesRequestUrl, new_URL.
  destruct (URL_parse (files_initialUrl task opts)) as [u|];
    simpl; [|discriminate].
  intros H. injection H as <-. now exists u.
Qed.

End UrlClasses.

(** C2, amended.  For every (task, apiKey, requestOptions), with
    baseUrl and apiVersion taken from requestOptions unless absent or
    empty, in which case they are DEFAULT_BASE_URL and
    DEFAULT_API_VERSION: CachedContentUrl hands
    {baseUrl}/{apiVersion}/cachedContents to the URL parser and
    FilesRequestUrl hands it {baseUrl}/{apiVersion}/files, with /upload
    inserted before the version segment exactly when the task is
    UPLOAD.  When the parser accepts the string, construction returns
    an object holding the parsed URL, whose string form is the
    parser's serialization of it (the composed string itself whenever
    that string is already in serialized form); when the parser
    rejects it, construction throws the parser's TypeError. *)
Theorem C2_initial_url {platform : Platform} {collaborators : Collaborators}
    (task : RpcTask) (apiKey : JSString.t) (opts : option RequestOptions) :
  let apiVersion :=
    or_default (optional_chain opts apiVersion) DEFAULT_API_VERSION in
  let baseUrl := or_default (optional_chain opts baseUrl) DEFAULT_BASE_URL in
  let upload := match task with UPLOAD => "/upload" | _ => "" end in
  let cached := (baseUrl ++ "/" ++ apiVersion ++ "/cachedContents")%string in
  let files := (baseUrl ++ upload ++ "/" ++ apiVersion ++ "/files")%string in
  match URL_parse cached with
  | Some u =>
      new_CachedContentUrl task apiKey opts
      = inr (mkServerRequestUrl task apiKey opts (Some u))
      /\ toString (mkServerRequestUrl task apiKey opts (Some u))
         = inr (URL.href u)
      /\ (URL.href u = cached ->
          toString (mkServerRequestUrl task apiKey opts (Some u)) = inr cached)
  | None => new_CachedContentUrl task apiKey opts = inl TypeError
  end
  /\
  match URL_parse files with
  | Some u =>
      new_FilesRequestUrl task apiKey opts
      = inr (mkServerRequestUrl task apiKey opts (Some u))
      /\ toString (mkServerRequestUrl task apiKey opts (Some u))
         = inr (URL.href u)
      /\ (URL.href u = files ->
          toString (mkServerRequestUrl task apiKey opts (Some u)) = inr files)
  | None => new_FilesRequestUrl task apiKey opts = inl TypeError
  end.
Proof.
  intros apiVersion baseUrl upload cached files.
  assert (Ec : cachedContent_initialUrl opts = cached) by reflexivity.
  assert (Ef : files_initialUrl task opts = files).
  { unfold files_initialUrl, files, upload. fold apiVersion baseUrl.
    destruct task; simpl; try reflexivity.
    now rewrite Str_app_assoc. }
  unfold new_CachedContentUrl, new_FilesRequestUrl, new_URL.
  rewrite Ec, Ef. split.
  - destruct (URL_parse cached) as [u|]; [|reflexivity].
    split; [reflexivity|]. split; [reflexivity|].
    intros H. unfold toString. simpl. now rewrite H.
  - destruct (URL_parse files) as [u|]; [|reflexivity].
    split; [reflexivity|]. split; [reflexivity|].
    intros H. unfold toString. simpl. now rewrite H.
Qed.

(** C8, amended.  For every ServerRequestUrl whose URL state is
    initialized, calling appendParam(k, v) twice appends two (k, v)
    entries behind the entries already there, which are kept; the query
    string becomes the form-urlencoded serialization of the whole list,
    so it ends with the pair twice (written k=v&k=v when k and v hold
    only letters, digits, *, -, . and _).  On an instance whose URL
    state was never initialized appendParam throws a TypeError. *)
Theorem C8_appendParam_twice (this : ServerRequestUrl) (k v : string) :
  match _url this with
  | Some u =>
      exists this' u',
        (this1 <- appendParam k v this ;; appendParam k v this1) = inr this'
        /\ _url this' = Some u'
        /\ URL.searchParams u' = URL.searchParams u ++ [(k, v); (k, v)]
        /\ URL.query u'
           = Some ((if Str.is_empty (URL.form_serialize (URL.searchParams u))
                    then ""
                    else URL.form_serialize (URL.searchParams u) ++ "&")
                   ++ URL.form_pair (k, v) ++ "&" ++ URL.form_pair (k, v))%string
        /\ toString this' = inr (URL.href u')
        /\ (Str.forallb form_safe k = true -> Str.forallb form_safe v = true ->
            URL.form_pair (k, v) = (k ++ "=" ++ v)%string)
  | None => appendParam k v this = inl TypeError
  end.
Proof.
  destruct (_url this) as [u|] eqn:E.
  - set (u1 := URL.searchParams_append k v u).
    set (u2 := URL.searchParams_append k v u1).
    exists (set_url u2 (set_url u1 this)), u2.
    destruct (searchParams_append_spec k v u) as [H1 H2].
    destruct (searchParams_append_spec k v u1) as [H3 H4].
    fold u1 in H1, H2. fold u2 in H3, H4.
    rewrite H1 in H3, H4. rewrite <- app_assoc in H3. simpl in H3.
    split; [unfold appendParam, the_url; now rewrite E|].
    split; [reflexivity|]. split; [exact H3|]. split.
    + rewrite H4, form_serialize_snoc, form_serialize_snoc_not_empty.
      rewrite form_serialize_snoc.
      now rewrite !Str_app_assoc.
    + split; [reflexivity|].
      intros Hk Hv. unfold URL.form_pair. simpl.
      now rewrite (form_encode_safe k Hk), (form_encode_safe v Hv).
  - unfold appendParam, the_url. now rewrite E.
Qed.

(** C9, amended.  For every CachedContentUrl and FilesRequestUrl object
    the internal URL state is initialized when the constructor returns
    and stays so through any sequence of appendPath and appendParam
    calls, each of which returns normally, as does toString after
    them.  (An instance of the base class ServerRequestUrl has no URL
    state, and the three operations throw on it.) *)
Theorem C9_subclass_url_initialized
    {platform : Platform} {collaborators : Collaborators}
    (task : RpcTask) (apiKey : JSString.t) (opts : option RequestOptions)
    (this : ServerRequestUrl) (ms : list mutation) :
  new_CachedContentUrl task apiKey opts = inr this
  \/ new_FilesRequestUrl task apiKey opts = inr this ->
  (exists u, _url this = Some u)
  /\ exists this' u' s,
       mutate_all ms this = inr this'
       /\ _url this' = Some u'
       /\ toString this' = inr s.
Proof.
  intros H.
  assert (Hu : exists u, _url this = Some u).
  { destruct H as [H|H];
      [apply new_CachedContentUrl_inv in H|apply new_FilesRequestUrl_inv in H];
      destruct H as (u & _ & ->); now exists u. }
  split; [exact Hu|]. destruct Hu as [u Hu].
  destruct (mutate_all_initialized ms this u Hu) as (this' & u' & Hm & Hu').
  exists this', u', (URL.href u'). repeat split; try assumption.
  unfold toString, the_url. now rewrite Hu'.
Qed.

(** ** The dispatcher and the signal builder *)

(** C3.  For every task in UPLOAD, LIST, GET, DELETE, UPDATE, CREATE
    the method of the task-to-method mapping is POST, GET, GET, DELETE,
    PATCH, POST respectively, and the request descriptor that
    makeServerRequest hands to makeRequest carries the method the
    mapping gives for the task of its URL. *)
Theorem C3_task_method :
  taskToMethod UPLOAD = "POST"
  /\ taskToMethod LIST = "GET"
  /\ taskToMethod GET = "GET"
  /\ taskToMethod DELETE = "DELETE"
  /\ taskToMethod UPDATE = "PATCH"
  /\ taskToMethod CREATE = "POST"
  /\ forall (collaborators : Collaborators) (url : ServerRequestUrl)
            (headers : Headers.t) (body : option Body) (h : Abort.heap),
     exists requestInit,
       RequestInit.method requestInit = taskToMethod (task url)
       /\ forall (R : Type) (fetchFn : string -> RequestInit.t -> R),
            fst (makeServerRequest url headers body fetchFn h)
            = (s <- toString url ;; ret (makeRequest R s requestInit fetchFn)).
Proof.
  repeat (split; [reflexivity|]).
  intros collaborators url headers body h.
  exists (RequestInit.mk (taskToMethod (task url)) headers
            (if body_truthy body then body else None)
            (fst (getSignal (requestOptions url) h))).
  split; [reflexivity|]. intros R fetchFn.
  unfold makeServerRequest.
  destruct (getSignal (requestOptions url) h) as [[s|] h'];
    destruct (body_truthy body); reflexivity.
Qed.

(** C6, amended.  With makeRequest as the spec describes it: for
    every URL object, header collection, optional body and transport
    function, makeServerRequest builds a request descriptor whose
    method is looked up from the task-to-method mapping, whose headers
    are the given collection, which contains the body exactly when a
    truthy one was supplied (a Blob or a non-empty string) and a
    cancellation signal exactly when getSignal computed one; it then
    invokes the transport with the string form of the URL and this
    descriptor and returns the transport's result unchanged.  On a URL
    object whose URL state was never initialized the stringification
    throws and the transport is not invoked. *)
Theorem C6_dispatch {collaborators : Collaborators} {R : Type}
    (url : ServerRequestUrl) (headers : Headers.t)
    (body : option Body) (fetchFn : string -> RequestInit.t -> R)
    (h : Abort.heap) :
  makeRequest_as_specified collaborators ->
  let requestInit :=
    RequestInit.mk (taskToMethod (task url)) headers
      (if body_truthy body then body else None)
      (fst (getSignal (requestOptions url) h)) in
  makeServerRequest url headers body fetchFn h
  = (match _url url with
     | Some u => inr (fetchFn (URL.href u) requestInit)
     | None => inl TypeError
     end,
     snd (getSignal (requestOptions url) h)).
Proof.
  intros Hspec. unfold makeServerRequest, toString, the_url.
  destruct (getSignal (requestOptions url) h) as [[s|] h'];
    destruct (body_truthy body); destruct (_url url); simpl;
    rewrite ?Hspec; reflexivity.
Qed.

(** *** Signals *)

Lemma update_nth_length {A} (n : nat) (f : A -> A) (l : list A) :
  List.length (Abort.update_nth n f l) = List.length l.
Proof.
  revert n. induction l as [|x r IH]; intros [|n]; simpl; auto.
Qed.

Lemma nth_error_update_nth {A} (n m : nat) (f : A -> A) (l : list A) :
  nth_error (Abort.update_nth n f l) m
  = if Nat.eqb n m then option_map f (nth_error l m) else nth_error l m.
Proof.
  revert n m. induction l as [|x r IH]; intros [|n] [|m]; simpl; auto;
    now destruct (Nat.eqb n m).
Qed.

(** Registering a listener or a timer aborts nothing. *)
Lemma is_aborted_addEventListener (x s : Abort.signal) (cb : Abort.callback)
    (h : Abort.heap) :
  Abort.is_aborted x (Abort.addEventListener s cb h) = Abort.is_aborted x h.
Proof.
  unfold Abort.is_aborted, Abort.addEventListener. simpl.
  rewrite nth_error_update_nth.
  destruct (Nat.eqb s x); [|reflexivity].
  now destruct (nth_error (Abort.signals h) x).
Qed.

Lemma is_aborted_setTimeout (x : Abort.signal) (cb : Abort.callback)
    (d : nullable number)
    (h : Abort.heap) :
  Abort.is_aborted x (Abort.setTimeout cb d h) = Abort.is_aborted x h.
Proof. reflexivity. Qed.

Lemma is_aborted_new_controller (h : Abort.heap) :
  Abort.is_aborted (fst (Abort.new_AbortController h))
    (snd (Abort.new_AbortController h)) = false.
Proof.
  unfold Abort.is_aborted, Abort.new_AbortController. simpl.
  rewrite nth_error_app2 by lia. now rewrite Nat.sub_diag.
Qed.

Lemma is_aborted_old_signal (x : Abort.signal) (h : Abort.heap) :
  Abort.is_aborted x h = true ->
  Abort.is_aborted x (snd (Abort.new_AbortController h)) = true.
Proof.
  unfold Abort.is_aborted, Abort.new_AbortController. simpl.
  destruct (nth_error (Abort.signals h) x) as [st|] eqn:E; [|discriminate].
  intros H. rewrite nth_error_app1.
  - now rewrite E.
  - apply nth_error_Some. now rewrite E.
Qed.

Lemma getSignal_eq (opts : option RequestOptions) (h : Abort.heap) :
  getSignal opts h =
  if signal_defined opts || timeout_ge_0 opts
  then (Some (List.length (Abort.signals h)), heap_after_getSignal opts h)
  else (None, h).
Proof. reflexivity. Qed.

Lemma heap_after_getSignal_aborted (opts : option RequestOptions)
    (h : Abort.heap) (x : Abort.signal) :
  Abort.is_aborted x (heap_after_getSignal opts h)
  = Abort.is_aborted x (snd (Abort.new_AbortController h)).
Proof.
  unfold heap_after_getSignal.
  destruct (optional_chain opts signal) as [[|external]|];
    rewrite ?is_aborted_addEventListener;
    destruct (optional_chain opts timeout) as [t|];
    try destruct (number_ge_0 (to_number t)); reflexivity.
Qed.

Lemma heap_after_getSignal_length (opts : option RequestOptions)
    (h : Abort.heap) :
  List.length (Abort.signals (heap_after_getSignal opts h))
  = S (List.length (Abort.signals h)).
Proof.
  unfold heap_after_getSignal.
  destruct (optional_chain opts signal) as [[|external]|];
    destruct (optional_chain opts timeout) as [t|];
    try destruct (number_ge_0 (to_number t)); simpl;
    rewrite ?update_nth_length, length_app; simpl; lia.
Qed.

(** Aborting an aborted signal changes nothing: its event was
    dispatched before, and is not dispatched again. *)
Lemma abort_aborted (s : Abort.signal) (h : Abort.heap) :
  Abort.is_aborted s h = true -> Abort.abort s h = h.
Proof.
  unfold Abort.is_aborted, Abort.abort. simpl.
  destruct (nth_error (Abort.signals h) s) as [st|]; [|reflexivity].
  now intros ->.
Qed.

(** C4: the behaviour of the code.  When the external signal of
    requestOptions is aborted at call time, getSignal returns the
    signal of a new controller that is NOT aborted on return: the
    listener is registered after the abort event was dispatched, so it
    never runs (aborting the external signal again changes nothing).
    The claim asks for a signal that is aborted on return. *)
Theorem C4_pre_aborted_signal_ignored (opts : RequestOptions)
    (external : Abort.signal) (h : Abort.heap) :
  signal opts = Some (Value external) ->
  Abort.is_aborted external h = true ->
  exists controller h',
    getSignal (Some opts) h = (Some controller, h')
    /\ Abort.is_aborted controller h' = false
    /\ Abort.is_aborted external h' = true
    /\ Abort.abort external h' = h'.
Proof.
  intros Hs Ha.
  exists (List.length (Abort.signals h)), (heap_after_getSignal (Some opts) h).
  assert (He : Abort.is_aborted external (heap_after_getSignal (Some opts) h) = true).
  { rewrite heap_after_getSignal_aborted. now apply is_aborted_old_signal. }
  split; [|split; [|split]].
  - rewrite getSignal_eq. unfold signal_defined. simpl. now rewrite Hs.
  - rewrite heap_after_getSignal_aborted. apply is_aborted_new_controller.
  - exact He.
  - now apply abort_aborted.
Qed.

(** C5, amended.  getSignal returns no cancellation signal exactly when
    the signal of requestOptions is undefined and its timeout is
    undefined or fails the test timeout >= 0 (it is negative or NaN).
    Whenever the signal is anything but undefined (null included) or
    the timeout passes the test (it is at least 0, or null, which
    converts to 0), a new controller is created and its signal, not
    aborted, is returned.  A signal of null wires nothing: without a
    timeout that passes the test, the call leaves the new controller
    with no listener and no timer that could abort it.  When nothing is
    returned the heap is untouched. *)
Theorem C5_signal_returned (opts : option RequestOptions) (h : Abort.heap) :
  (fst (getSignal opts h) = None <->
   optional_chain opts signal = None
   /\ forall t, optional_chain opts timeout = Some t ->
                number_ge_0 (to_number t) = false)
  /\ (forall s, fst (getSignal opts h) = Some s ->
        s = List.length (Abort.signals h)
        /\ nth_error (Abort.signals h) s = None
        /\ List.length (Abort.signals (snd (getSignal opts h)))
           = S (List.length (Abort.signals h))
        /\ Abort.is_aborted s (snd (getSignal opts h)) = false)
  /\ (optional_chain opts signal = Some Null ->
      timeout_ge_0 opts = false ->
      getSignal opts h
      = (Some (List.length (Abort.signals h)),
         Abort.mk_heap (Abort.signals h ++ [Abort.mk_signal false []])
           (Abort.timers h)))
  /\ (fst (getSignal opts h) = None -> snd (getSignal opts h) = h).
Proof.
  assert (Hnew : forall s,
             Some (List.length (Abort.signals h)) = Some s ->
             s = List.length (Abort.signals h)
             /\ nth_error (Abort.signals h) s = None
             /\ List.length (Abort.signals (heap_after_getSignal opts h))
                = S (List.length (Abort.signals h))
             /\ Abort.is_aborted s (heap_after_getSignal opts h) = false).
  { intros s H. injection H as <-.
    split; [reflexivity|]. split; [apply nth_error_None; lia|].
    split; [apply heap_after_getSignal_length|].
    rewrite heap_after_getSignal_aborted. apply is_aborted_new_controller. }
  rewrite getSignal_eq. unfold signal_defined, timeout_ge_0.
  destruct (optional_chain opts signal) as [external|] eqn:Es; cbn [orb fst snd].
  - split; [|split; [|split]].
    + split; [discriminate|]. intros [H _]. discriminate.
    + exact Hnew.
    + intros Hn Hge. injection Hn as ->. f_equal.
      unfold heap_after_getSignal. rewrite Es.
      destruct (optional_chain opts timeout) as [t|]; [rewrite Hge|];
        reflexivity.
    + discriminate.
  - destruct (optional_chain opts timeout) as [t|] eqn:Et.
    + destruct (number_ge_0 (to_number t)) eqn:E; cbn [fst snd].
      * split; [|split; [|split]].
        -- split; [discriminate|]. intros [_ H].
           rewrite (H t eq_refl) in E. discriminate.
        -- exact Hnew.
        -- discriminate.
        -- discriminate.
      * split; [|split; [|split]].
        -- split; [|reflexivity]. intros _. split; [reflexivity|].
           intros t' H. now injection H as <-.
        -- discriminate.
        -- discriminate.
        -- reflexivity.
    + cbn [fst snd]. split; [|split; [|split]].
      * split; [|reflexivity]. intros _. split; [reflexivity|]. discriminate.
      * discriminate.
      * discriminate.
      * reflexivity.
Qed.

(** *** The wiring on a signal that aborts later *)

Lemma fold_left_invariant {A B} (P : A -> Prop) (f : A -> B -> A) (l : list B) :
  (forall a b, P a -> P (f a b)) -> forall a, P a -> P (fold_left f l a).
Proof.
  intros Hf. induction l as [|b r IH]; simpl; auto.
Qed.

Lemma is_aborted_set_flag (x s : Abort.signal) (h : Abort.heap) :
  Abort.is_aborted x h = true ->
  Abort.is_aborted x
    (Abort.mk_heap
       (Abort.update_nth s
          (fun st => Abort.mk_signal true (Abort.listeners st)) (Abort.signals h))
       (Abort.timers h)) = true.
Proof.
  unfold Abort.is_aborted. simpl. rewrite nth_error_update_nth.
  destruct (Nat.eqb s x); [|auto].
  now destruct (nth_error (Abort.signals h) x).
Qed.

Lemma abort_rec_unfold (fuel : nat) (s : Abort.signal) (h : Abort.heap) :
  Abort.abort_rec (S fuel) s h
  = match nth_error (Abort.signals h) s with
    | None => h
    | Some st =>
        if Abort.aborted st then h
        else fold_left (run_listener fuel) (Abort.listeners st)
               (Abort.mk_heap
                  (Abort.update_nth s
                     (fun st => Abort.mk_signal true (Abort.listeners st))
                     (Abort.signals h))
                  (Abort.timers h))
    end.
Proof. reflexivity. Qed.

(** An aborted signal stays aborted. *)
Lemma abort_rec_monotone (fuel : nat) (x s : Abort.signal) (h : Abort.heap) :
  Abort.is_aborted x h = true ->
  Abort.is_aborted x (Abort.abort_rec fuel s h) = true.
Proof.
  revert s h. induction fuel as [|fuel IH]; intros s h Hx; simpl; [assumption|].
  destruct (nth_error (Abort.signals h) s) as [st|]; [|assumption].
  destruct (Abort.aborted st); [assumption|].
  apply (fold_left_invariant (fun h => Abort.is_aborted x h = true)).
  - intros a [target] Ha. now apply IH.
  - now apply is_aborted_set_flag.
Qed.

Lemma abort_rec_length (fuel : nat) (s : Abort.signal) (h : Abort.heap) :
  List.length (Abort.signals (Abort.abort_rec fuel s h))
  = List.length (Abort.signals h).
Proof.
  revert s h. induction fuel as [|fuel IH]; intros s h; simpl; [reflexivity|].
  destruct (nth_error (Abort.signals h) s) as [st|]; [|reflexivity].
  destruct (Abort.aborted st); [reflexivity|].
  apply (fold_left_invariant
           (fun h' => List.length (Abort.signals h')
                      = List.length (Abort.signals h))).
  - intros a [target] Ha. now rewrite IH.
  - simpl. apply update_nth_length.
Qed.

(** Aborting a signal of the heap leaves it aborted. *)
Lemma abort_rec_aborts (fuel : nat) (s : Abort.signal) (h : Abort.heap) :
  s < List.length (Abort.signals h) ->
  Abort.is_aborted s (Abort.abort_rec (S fuel) s h) = true.
Proof.
  intros Hs. simpl.
  destruct (nth_error (Abort.signals h) s) as [st|] eqn:E.
  - destruct (Abort.aborted st) eqn:Ea.
    + unfold Abort.is_aborted. now rewrite E.
    + apply (fold_left_invariant (fun h => Abort.is_aborted s h = true)).
      * intros a [target] Ha. now apply abort_rec_monotone.
      * unfold Abort.is_aborted. simpl. rewrite nth_error_update_nth.
        now rewrite Nat.eqb_refl, E.
  - apply nth_error_None in E. lia.
Qed.

(** The sibling case of C4: an external signal that is not aborted at
    call time and aborts afterwards does abort the returned signal. *)
Lemma getSignal_follows_later_abort (opts : RequestOptions)
    (external : Abort.signal) (st : Abort.signal_state) (h : Abort.heap) :
  signal opts = Some (Value external) ->
  nth_error (Abort.signals h) external = Some st ->
  Abort.aborted st = false ->
  exists controller h',
    getSignal (Some opts) h = (Some controller, h')
    /\ Abort.is_aborted controller h' = false
    /\ Abort.is_aborted controller (Abort.abort external h') = true.
Proof.
  intros Hs Hst Ha.
  set (n := List.length (Abort.signals h)).
  exists n, (heap_after_getSignal (Some opts) h).
  split; [|split].
  - rewrite getSignal_eq. unfold signal_defined. simpl. now rewrite Hs.
  - rewrite heap_after_getSignal_aborted. apply is_aborted_new_controller.
  - assert (Hlt : external < n).
    { apply nth_error_Some. now rewrite Hst. }
    unfold Abort.abort. rewrite heap_after_getSignal_length. fold n.
    assert (Hext : nth_error (Abort.signals (heap_after_getSignal (Some opts) h))
                     external
                   = Some (Abort.mk_signal false
                             (Abort.listeners st ++ [Abort.AbortController_abort n]))).
    { unfold heap_after_getSignal. simpl. rewrite Hs. fold n.
      assert (E : forall timers,
                 nth_error
                   (Abort.signals
                      (Abort.addEventListener external
                         (Abort.AbortController_abort n)
                         (Abort.mk_heap
                            (Abort.signals h ++ [Abort.mk_signal false []])
                            timers))) external
                 = Some (Abort.mk_signal false
                           (Abort.listeners st ++ [Abort.AbortController_abort n]))).
      { intros timers. simpl. rewrite nth_error_update_nth, Nat.eqb_refl.
        rewrite nth_error_app1 by exact Hlt. rewrite Hst. simpl. now rewrite Ha. }
      destruct (timeout opts) as [t|]; [destruct (number_ge_0 (to_number t))|];
        apply E. }
    rewrite abort_rec_unfold, Hext. cbn [Abort.aborted Abort.listeners].
    rewrite fold_left_app. cbn [fold_left]. unfold run_listener at 1.
    apply abort_rec_aborts.
    match goal with
    | |- _ < List.length (Abort.signals (fold_left ?f ?l ?a)) =>
        assert (Hlen : List.length (Abort.signals (fold_left f l a)) = S n)
    end.
    { apply (fold_left_invariant
               (fun h' => List.length (Abort.signals h') = S n)).
      - intros a [target] Hlen. unfold run_listener.
        now rewrite abort_rec_length.
      - simpl. rewrite update_nth_length.
        apply heap_after_getSignal_length. }
    rewrite Hlen. lia.
Qed.

(** ** The reference parser on serialized URLs *)

Lemma span_app (p : ascii -> bool) (a b : string) :
  Str.forallb p a = true ->
  Str.first_ok (fun c => negb (p c)) b = true ->
  URLParser.span p (a ++ b) = (a, b).
Proof.
  intros Ha Hb. induction a as [|c r IH]; simpl.
  - destruct b as [|d b']; [reflexivity|]. simpl in *.
    apply negb_true_iff in Hb. now rewrite Hb.
  - simpl in Ha. apply andb_true_iff in Ha as [Hc Hr].
    now rewrite Hc, (IH Hr).
Qed.

Lemma span_all (p : ascii -> bool) (a : string) :
  Str.forallb p a = true -> URLParser.span p a = (a, EmptyString).
Proof.
  intros Ha. induction a as [|c r IH]; simpl; [reflexivity|].
  simpl in Ha. apply andb_true_iff in Ha as [Hc Hr]. now rewrite Hc, (IH Hr).
Qed.

Lemma Str_forallb_weaken (p q : ascii -> bool) (s : string) :
  (forall c, p c = true -> q c = true) ->
  Str.forallb p s = true -> Str.forallb q s = true.
Proof.
  intros Hpq. induction s as [|c r IH]; simpl; [reflexivity|].
  intros H. apply andb_true_iff in H as [Hc Hr]. now rewrite (Hpq c Hc), (IH Hr).
Qed.

Lemma split_no_separator (sep : ascii -> bool) (a : string) :
  Str.forallb (fun c => negb (sep c)) a = true -> URLParser.split sep a = [a].
Proof.
  induction a as [|c r IH]; simpl; [reflexivity|].
  intros H. apply andb_true_iff in H as [Hc Hr]. apply negb_true_iff in Hc.
  now rewrite Hc, (IH Hr).
Qed.

Lemma split_app (sep : ascii -> bool) (a b : string) (d : ascii) :
  Str.forallb (fun c => negb (sep c)) a = true -> sep d = true ->
  URLParser.split sep (a ++ String d b) = a :: URLParser.split sep b.
Proof.
  intros Ha Hd. induction a as [|c r IH]; simpl.
  - now rewrite Hd.
  - simpl in Ha. apply andb_true_iff in Ha as [Hc Hr]. apply negb_true_iff in Hc.
    now rewrite Hc, (IH Hr).
Qed.

(** The characters of the labels are the characters of the host but
    its dots. *)
Lemma split_forallb (p sep : ascii -> bool) (s : string) :
  forallb (Str.forallb p) (URLParser.split sep s) = true ->
  Str.forallb (fun c => p c || sep c) s = true.
Proof.
  induction s as [|c r IH]; simpl; [reflexivity|].
  destruct (sep c) eqn:E.
  - simpl. intros H. rewrite orb_true_r. simpl. exact (IH H).
  - destruct (URLParser.split sep r) as [|x xs] eqn:Es.
    + simpl. intros H. rewrite !andb_true_r in H. rewrite orb_false_r.
      rewrite H. simpl. apply IH. reflexivity.
    + simpl. intros H. apply andb_true_iff in H as [H Hxs].
      apply andb_true_iff in H as [Hc Hx]. rewrite Hc. simpl.
      apply IH. simpl. now rewrite Hx, Hxs.
Qed.

Lemma label_supported_chars (label : string) :
  URLParser.label_supported label = true ->
  Str.forallb (fun c => Char.is_alnum c || URLParser.ch c "-") label = true.
Proof.
  destruct label as [|c r]; [discriminate|].
  unfold URLParser.label_supported. intros H.
  apply andb_true_iff in H as [H _]. now apply andb_true_iff in H as [_ H].
Qed.

Lemma host_supported_chars (host : string) :
  URLParser.host_supported host = true ->
  Str.forallb host_char host = true /\ Str.is_empty host = false.
Proof.
  unfold URLParser.host_supported. intros H. split.
  - apply Str_forallb_weaken
      with (p := fun c => (Char.is_alnum c || URLParser.ch c "-")
                          || URLParser.ch "." c).
    + intros c. unfold host_char, URLParser.ch.
      rewrite (Ascii.eqb_sym "."%char c). auto.
    + apply split_forallb. rewrite forallb_forall in *. intros l Hl.
      apply label_supported_chars, H, Hl.
  - destruct host; [discriminate|reflexivity].
Qed.

Lemma host_char_facts (c : ascii) :
  host_char c = true ->
  URLParser.supported_char c = true
  /\ negb (URLParser.ch c "/" || URLParser.ch c "?" || URLParser.ch c "#") = true
  /\ negb (URLParser.ch c ":") = true
  /\ URLParser.ch "/" c = false.
Proof. by_cases_on c. Qed.

Lemma segment_char_facts (c : ascii) :
  segment_char c = true ->
  URLParser.supported_char c = true
  /\ negb (URLParser.ch c "?" || URLParser.ch c "#") = true
  /\ negb (URLParser.ch "/" c) = true.
Proof. by_cases_on c. Qed.

Lemma Str_app_empty_r (a : string) : (a ++ "")%string = a.
Proof. induction a as [|c r IH]; simpl; [reflexivity|]. now rewrite IH. Qed.

Lemma joined_cons (seg : string) (rest : list string) :
  joined (seg :: rest) = String "/" (seg ++ joined rest).
Proof.
  unfold joined. destruct rest as [|y l]; simpl.
  - now rewrite Str_app_empty_r.
  - reflexivity.
Qed.

Lemma joined_forallb (q : ascii -> bool) (path : list string) :
  q "/"%char = true ->
  forallb (Str.forallb q) path = true ->
  Str.forallb q (joined path) = true.
Proof.
  intros Hq. induction path as [|seg rest IH]; [reflexivity|].
  simpl. intros H. apply andb_true_iff in H as [Hseg Hrest].
  rewrite joined_cons. simpl. now rewrite Hq, Str_forallb_app, Hseg, (IH Hrest).
Qed.

Lemma split_joined (seg : string) (rest : list string) :
  forallb (Str.forallb (fun c => negb (URLParser.ch "/" c))) (seg :: rest) = true ->
  URLParser.split (URLParser.ch "/") (seg ++ joined rest) = seg :: rest.
Proof.
  revert seg. induction rest as [|y l IH]; intros seg H.
  - simpl in H. rewrite andb_true_r in H.
    change (joined []) with EmptyString. rewrite Str_app_empty_r.
    now apply split_no_separator.
  - change (forallb (Str.forallb (fun c => negb (URLParser.ch "/" c))) (seg :: y :: l))
      with (Str.forallb (fun c => negb (URLParser.ch "/" c)) seg
            && forallb (Str.forallb (fun c => negb (URLParser.ch "/" c))) (y :: l))
      in H.
    apply andb_true_iff in H as [Hseg Hrest].
    rewrite joined_cons, split_app; [|assumption|reflexivity].
    now rewrite (IH y Hrest).
Qed.

Lemma path_state_plain (segments path : list string) :
  forallb (fun seg => negb (URLParser.is_single_dot seg)
                      && negb (URLParser.is_double_dot seg)) segments = true ->
  URLParser.path_state segments path = path ++ segments.
Proof.
  revert path. induction segments as [|seg rest IH]; intros path H.
  - simpl. now rewrite app_nil_r.
  - simpl in H. apply andb_true_iff in H as [Hseg Hrest].
    apply andb_true_iff in Hseg as [Hs Hd]. apply negb_true_iff in Hs, Hd.
    destruct rest as [|y l].
    + simpl. now rewrite Hs, Hd.
    + change (URLParser.path_state (seg :: y :: l) path)
        with (URLParser.path_state (y :: l)
                (if URLParser.is_double_dot seg then removelast path
                 else if URLParser.is_single_dot seg then path
                 else path ++ [seg])).
      rewrite Hs, Hd, (IH _ Hrest). now rewrite <- app_assoc.
Qed.

Lemma plain_segments_facts (path : list string) :
  forallb plain_segment path = true ->
  forallb (Str.forallb segment_char) path = true
  /\ forallb (fun seg => negb (URLParser.is_single_dot seg)
                         && negb (URLParser.is_double_dot seg)) path = true.
Proof.
  induction path as [|seg rest IH]; [now split|].
  simpl. intros H. apply andb_true_iff in H as [Hseg Hrest].
  destruct (IH Hrest) as [H1 H2]. unfold plain_segment in Hseg.
  apply andb_true_iff in Hseg as [Hseg Hd]. apply andb_true_iff in Hseg as [Hc Hs].
  now rewrite Hc, H1, Hs, Hd, H2.
Qed.

Lemma forallb_Str_weaken (p q : ascii -> bool) (path : list string) :
  (forall c, p c = true -> q c = true) ->
  forallb (Str.forallb p) path = true -> forallb (Str.forallb q) path = true.
Proof.
  intros Hpq. induction path as [|seg rest IH]; [reflexivity|].
  simpl. intros H. apply andb_true_iff in H as [Hseg Hrest].
  now rewrite (Str_forallb_weaken p q seg Hpq Hseg), (IH Hrest).
Qed.

(** The path of a serialized URL parses back to its segments. *)
Lemma parse_path_joined (path : list string) :
  path <> [] -> forallb plain_segment path = true ->
  URLParser.parse_path (joined path) = path.
Proof.
  intros Hne H. destruct path as [|seg rest]; [contradiction|].
  destruct (plain_segments_facts _ H) as [Hc Hd].
  unfold URLParser.parse_path. rewrite joined_cons.
  rewrite split_joined.
  - now rewrite path_state_plain.
  - eapply forallb_Str_weaken; [|exact Hc].
    intros c Hc'. now apply segment_char_facts in Hc'.
Qed.

(** The reference parser takes the serialization of a plain URL back
    to that URL: on such strings the string form of the constructed
    object is the string handed to the constructor. *)
Lemma parse_serialized (scheme host : string) (path : list string) :
  plain_scheme scheme = true ->
  plain_host host = true ->
  path <> [] ->
  forallb plain_segment path = true ->
  URLParser.parse (URL.href (plain_url scheme host path))
  = URLParser.Parsed (plain_url scheme host path).
Proof.
  intros Hscheme Hhost Hne Hpath.
  unfold plain_host in Hhost. apply andb_true_iff in Hhost as [Hsup Hlow].
  apply String.eqb_eq in Hlow.
  destruct (host_supported_chars host Hsup) as [Hchars Hnonempty].
  destruct (plain_segments_facts _ Hpath) as [Hsegs _].
  assert (Hhref : URL.href (plain_url scheme host path)
                  = (scheme ++ "://" ++ host ++ joined path)%string).
  { unfold URL.href, plain_url, URL.pathname. simpl.
    fold (joined path). now rewrite Str_app_empty_r. }
  rewrite Hhref.
  assert (Hall : Str.forallb URLParser.supported_char (host ++ joined path) = true).
  { rewrite Str_forallb_app. apply andb_true_iff. split.
    - eapply Str_forallb_weaken; [|exact Hchars].
      intros c Hc. now apply host_char_facts in Hc.
    - apply joined_forallb; [reflexivity|].
      eapply forallb_Str_weaken; [|exact Hsegs].
      intros c Hc. now apply segment_char_facts in Hc. }
  assert (Hspecial : URLParser.parse_special scheme ("//" ++ host ++ joined path)
                     = URLParser.Parsed (plain_url scheme host path)).
  { unfold URLParser.parse_special.
    change (Str.strip_leading (URLParser.ch "/") ("//" ++ host ++ joined path))
      with (Str.strip_leading (URLParser.ch "/") (host ++ joined path)).
    rewrite Str_strip_leading_id.
    2:{ destruct host as [|c r]; [discriminate|].
        cbn [Str.forallb] in Hchars. cbn [String.append Str.first_ok].
        apply andb_true_iff in Hchars as [Hc _].
        apply host_char_facts in Hc as (_ & _ & _ & Hc). now rewrite Hc. }
    rewrite span_app.
    2:{ eapply Str_forallb_weaken; [|exact Hchars].
        intros c Hc. now apply host_char_facts in Hc. }
    2:{ destruct path as [|seg rest]; [contradiction|].
        now rewrite joined_cons. }
    rewrite span_all.
    2:{ eapply Str_forallb_weaken; [|exact Hchars].
        intros c Hc. now apply host_char_facts in Hc. }
    rewrite Hnonempty.
    assert (Hport : URLParser.parse_port scheme "" = Some None) by reflexivity.
    rewrite Hport, Hsup. cbn [negb].
    rewrite span_all.
    2:{ apply joined_forallb; [reflexivity|].
        eapply forallb_Str_weaken; [|exact Hsegs].
        intros c Hc. now apply segment_char_facts in Hc. }
    rewrite parse_path_joined by assumption.
    unfold URLParser.serialize_host, plain_url. now rewrite Hlow. }
  unfold plain_scheme in Hscheme. apply orb_true_iff in Hscheme as [E|E];
    apply String.eqb_eq in E; subst scheme;
    unfold URLParser.parse; cbn [Str.forallb String.append];
    rewrite Hall; exact Hspecial.
Qed.

Lemma joined_app (a b : list string) :
  joined (a ++ b) = (joined a ++ joined b)%string.
Proof.
  induction a as [|seg rest IH]; [reflexivity|].
  change ((seg :: rest) ++ b) with (seg :: (rest ++ b)).
  rewrite !joined_cons, IH. simpl. now rewrite Str_app_assoc.
Qed.

Lemma href_plain (scheme host : string) (path : list string) :
  URL.href (plain_url scheme host path)
  = (scheme ++ "://" ++ host ++ joined path)%string.
Proof.
  unfold URL.href, plain_url, URL.pathname. simpl.
  fold (joined path). now rewrite Str_app_empty_r.
Qed.

(** On a plain base URL and a plain version segment the string form of
    both request URLs is the composed string itself, as C2 has it. *)
Lemma reference_string_form {collaborators : Collaborators}
    (task : RpcTask) (apiKey : JSString.t) (scheme host version : string)
    (base_path : list string) (opts : RequestOptions) :
  plain_scheme scheme = true ->
  plain_host host = true ->
  forallb plain_segment base_path = true ->
  plain_segment version = true ->
  version <> EmptyString ->
  baseUrl opts = Some (scheme ++ "://" ++ host ++ joined base_path)%string ->
  apiVersion opts = Some version ->
  let base := (scheme ++ "://" ++ host ++ joined base_path)%string in
  let upload := match task with UPLOAD => "/upload" | _ => "" end in
  (this <- @new_CachedContentUrl reference_platform collaborators
             task apiKey (Some opts) ;;
   toString this)
  = inr (base ++ "/" ++ version ++ "/cachedContents")%string
  /\ (this <- @new_FilesRequestUrl reference_platform collaborators
                task apiKey (Some opts) ;;
      toString this)
     = inr (base ++ upload ++ "/" ++ version ++ "/files")%string.
Proof.
  intros Hscheme Hhost Hbase Hversion Hne HbaseUrl HapiVersion base upload.
  assert (Htruthy : Str.truthy base = true).
  { unfold base, plain_scheme in *. apply orb_true_iff in Hscheme as [E|E];
      apply String.eqb_eq in E; subst scheme; reflexivity. }
  assert (Hv : Str.truthy version = true) by now destruct version.
  assert (Hrun : forall extra : list string,
             forallb plain_segment extra = true -> extra <> [] ->
             @new_URL reference_platform (base ++ joined extra)
             = inr (plain_url scheme host (base_path ++ extra))).
  { intros extra Hextra Hnil. unfold new_URL, base. cbn [URL_parse reference_platform].
    rewrite !Str_app_assoc, <- joined_app, <- href_plain.
    rewrite parse_serialized; try assumption; [reflexivity| |].
    - destruct base_path; [assumption|discriminate].
    - now rewrite forallb_app, Hbase, Hextra. }
  assert (Hjoin : forall last : string,
             joined [version; last] = String "/" (version ++ String "/" last)).
  { intros last. reflexivity. }
  split.
  - unfold new_CachedContentUrl, cachedContent_initialUrl. simpl.
    rewrite HbaseUrl, HapiVersion. unfold or_default. fold base.
    rewrite Htruthy, Hv, <- (Hjoin "cachedContents").
    rewrite Hrun; [|simpl; now rewrite Hversion|discriminate].
    unfold toString. simpl bind.
    rewrite href_plain, joined_app. unfold base. now rewrite !Str_app_assoc.
  - unfold new_FilesRequestUrl, files_initialUrl. simpl.
    rewrite HbaseUrl, HapiVersion. unfold or_default. fold base.
    rewrite Htruthy, Hv.
    set (up := match task with UPLOAD => ["upload"] | _ => [] end).
    assert (Eup : upload = joined up) by now destruct task.
    assert (E : ((if RpcTask_eqb task UPLOAD then base ++ "/upload" else base)
                 ++ String "/" (version ++ "/files"))%string
                = (base ++ joined (up ++ [version; "files"]))%string).
    { rewrite joined_app, (Hjoin "files"), <- Eup.
      destruct task; simpl; try reflexivity.
      now rewrite Str_app_assoc. }
    rewrite E, Hrun.
    + unfold toString. simpl bind. rewrite href_plain, !joined_app, (Hjoin "files").
      rewrite Eup. unfold base. now rewrite !Str_app_assoc.
    + rewrite forallb_app. simpl. rewrite Hversion. now destruct task.
    + now destruct task.
Qed.

(** * Concrete runs *)

Example headers_of_init_ex :
  Headers.of_init
    (List.map JSString.pair_of_strings [("Foo", " bar "); ("foo", "baz")])
  = inr [("Foo", "bar"); ("Foo", "baz")].
Proof. reflexivity. Qed.

Example headers_entries_ex :
  Headers.entries [("Foo", "bar"); ("B", "1"); ("Foo", "baz")]
  = [("b", "1"); ("foo", "bar, baz")].
Proof. reflexivity. Qed.

Example headers_bad_name_ex :
  Headers.of_init (List.map JSString.pair_of_strings [("bad name", "x")])
  = inl TypeError.
Proof. reflexivity. Qed.

Example headers_bad_value_ex :
  Headers.append (JSString.of_string "x-goog-api-key")
    (JSString.of_string ("a" ++ LF ++ "b")) Headers.new
  = inl TypeError.
Proof. reflexivity. Qed.

Example files_url_constructed :
  @new_FilesRequestUrl reference_platform reference_collaborators
     GET key_k (Some (options_with_headers [("foo", "bar")]))
  = inr (files_url "k" (Some (options_with_headers [("foo", "bar")]))).
Proof. reflexivity. Qed.

Example cachedContent_default_string :
  (this <- @new_CachedContentUrl reference_platform reference_collaborators
             GET key_k None ;;
   toString this)
  = inr "https://generativelanguage.googleapis.com/v1beta/cachedContents".
Proof. reflexivity. Qed.

Example files_upload_default_string :
  (this <- @new_FilesRequestUrl reference_platform reference_collaborators
             UPLOAD key_k None ;;
   toString this)
  = inr "https://generativelanguage.googleapis.com/upload/v1beta/files".
Proof. reflexivity. Qed.

Example appendPath_twice :
  (this <- @new_FilesRequestUrl reference_platform reference_collaborators
             GET key_k None ;;
   this <- @appendPath reference_platform "a" this ;;
   this <- @appendPath reference_platform "b" this ;;
   toString this)
  = inr "https://generativelanguage.googleapis.com/v1beta/files/a/b".
Proof. reflexivity. Qed.

Example getHeaders_foo_bar :
  @getHeaders reference_collaborators
     (files_url "k" (Some (options_with_headers [("foo", "bar")])))
  = inr [("x-goog-api-client", "genai-js/0.21.0");
         ("x-goog-api-key", "k");
         ("foo", "bar")].
Proof. reflexivity. Qed.

Example getHeaders_reserved_key :
  @getHeaders reference_collaborators
     (files_url "k" (Some (options_with_headers [("x-goog-api-key", "x")])))
  = inl (GoogleGenerativeAIRequestInputError (CannotSetReserved "x-goog-api-key")).
Proof. reflexivity. Qed.

Example getHeaders_reserved_client :
  @getHeaders reference_collaborators
     (files_url "k" (Some (options_with_headers [("X-Goog-Api-Client", "x")])))
  = inl (GoogleGenerativeAIRequestInputError (OnlyViaApiClient "x-goog-api-client")).
Proof. reflexivity. Qed.

(** C1 at a concrete input: a plain object with the reserved key name. *)
Lemma C1_witness :
  let url := files_url "k" (Some (options_with_headers [("x-goog-api-key", "x")])) in
  exists e,
    @getHeaders reference_collaborators url = inl e
    /\ (@identity_valid reference_collaborators url = true ->
        exists m, e = GoogleGenerativeAIRequestInputError m)
    /\ (@identity_valid reference_collaborators url = false -> e = TypeError).
Proof.
  refine (proj2 (@C1_reserved_name_rejected reference_collaborators
                   (files_url "k"
                      (Some (options_with_headers [("x-goog-api-key", "x")])))
                   (options_with_headers [("x-goog-api-key", "x")])
                   (plain_object [("x-goog-api-key", "x")])
                   eq_refl eq_refl eq_refl _)).
  exists "x-goog-api-key". split; [left; reflexivity|reflexivity].
Defined.

(** C1 as stated fails: with an API key that holds a line feed the
    reserved custom header name is never reached; appending the key
    throws the platform's TypeError, not the input error. *)
Lemma C1_counterexample :
  let custom := plain_object [("x-goog-api-key", "x")] in
  let url := files_url ("a" ++ LF ++ "b")
               (Some (options_with_headers [("x-goog-api-key", "x")])) in
  In (JSString.of_string "x-goog-api-key") (custom_names custom)
  /\ @getHeaders reference_collaborators url = inl TypeError
  /\ ~ (exists m, @getHeaders reference_collaborators url
                  = inl (GoogleGenerativeAIRequestInputError m)).
Proof.
  split; [left; reflexivity|]. split; [reflexivity|].
  intros [m H]. vm_compute in H. discriminate.
Qed.

(** An API key that is no ByteString, k followed by the code unit
    0x0416: appending it throws the TypeError of the conversion, and
    the reserved custom header name is never reached. *)
Example getHeaders_wide_api_key :
  @getHeaders reference_collaborators
     (mkServerRequestUrl GET (JSString.of_string "k" ++ [1046%N])
        (Some (options_with_headers [("x-goog-api-key", "x")])) None)
  = inl TypeError.
Proof. reflexivity. Qed.

(** C7 at a concrete input: the custom header foo: bar. *)
Lemma C7_witness :
  let url := files_url "k" (Some (options_with_headers [("foo", "bar")])) in
  exists headers,
    @getHeaders reference_collaborators url = inr headers
    /\ Headers.get "x-goog-api-client" headers = Some "genai-js/0.21.0"
    /\ Headers.get "x-goog-api-key" headers = Some "k"
    /\ In ("foo", "bar") headers.
Proof.
  destruct (@C7_headers_returned reference_collaborators
              (files_url "k" (Some (options_with_headers [("foo", "bar")])))
              [("foo", "bar")])
    as (headers & Hg & Hclient & Hkey & _ & Hone).
  - reflexivity.
  - reflexivity.
  - reflexivity.
  - intros n [<-|[]]. reflexivity.
  - exists headers. repeat split; try assumption.
    exact (Hone (List.map JSString.pair_of_strings [("foo", "bar")])
             "foo" "bar" eq_refl eq_refl).
Defined.

(** C7 as stated fails.  A custom header whose name is no token is not
    a reserved name, yet getHeaders returns no collection: the
    conversion fails and the input error is thrown.  Nor is a
    capitalized variant of the key name equal to a reserved name, and
    it is rejected all the same.  An API key holding a line feed stops
    getHeaders with a TypeError.  And a value supplied with blanks
    around it is stored without them. *)
Lemma C7_counterexample :
  (reserved "bad name" = false
   /\ @getHeaders reference_collaborators
        (files_url "k" (Some (options_with_headers [("bad name", "x")])))
      = inl (GoogleGenerativeAIRequestInputError
               (UnableToConvert
                  (List.map JSString.pair_of_strings [("bad name", "x")]))))
  /\ (reserved "X-Goog-Api-Key" = false
      /\ @getHeaders reference_collaborators
           (files_url "k" (Some (options_with_headers [("X-Goog-Api-Key", "x")])))
         = inl (GoogleGenerativeAIRequestInputError
                  (CannotSetReserved "x-goog-api-key")))
  /\ @getHeaders reference_collaborators
       (files_url ("a" ++ LF ++ "b") (Some (options_with_headers [("foo", "bar")])))
     = inl TypeError
  /\ @getHeaders reference_collaborators
       (files_url "k" (Some (options_with_headers [("foo", " bar ")])))
     = inr [("x-goog-api-client", "genai-js/0.21.0");
            ("x-goog-api-key", "k");
            ("foo", "bar")].
Proof. repeat split. Qed.

(** C10 at a concrete input: a capitalized variant of the key name. *)
Lemma C10_witness :
  let url := files_url "k" (Some (options_with_headers [("X-Goog-Api-Key", "x")])) in
  exists e,
    @getHeaders reference_collaborators url = inl e
    /\ (@identity_valid reference_collaborators url = true ->
        exists m, e = GoogleGenerativeAIRequestInputError m)
    /\ (@identity_valid reference_collaborators url = false -> e = TypeError).
Proof.
  refine (proj1 (@C10_case_variants_rejected reference_collaborators
                   (files_url "k"
                      (Some (options_with_headers [("X-Goog-Api-Key", "x")])))
                   (options_with_headers [("X-Goog-Api-Key", "x")])
                   (plain_object [("X-Goog-Api-Key", "x")])
                   eq_refl eq_refl eq_refl)
                "X-Goog-Api-Key" _ eq_refl).
  left. reflexivity.
Defined.

(** C10 as stated fails: a case variant of the reserved key name is
    supplied, and what getHeaders throws is the TypeError raised for
    the API key, which holds a line feed between two words. *)
Lemma C10_counterexample :
  let url := files_url ("se" ++ LF ++ "cret")%string
               (Some (options_with_headers [("X-Goog-Api-Key", "x")])) in
  reserved (Str.lower "X-Goog-Api-Key") = true
  /\ @getHeaders reference_collaborators url = inl TypeError
  /\ is_input_error (@getHeaders reference_collaborators url) = false.
Proof. repeat split. Qed.

(** C2 at a concrete input: the default endpoint, task UPLOAD. *)
Lemma C2_witness :
  @new_FilesRequestUrl reference_platform reference_collaborators UPLOAD key_k None
  = inr (mkServerRequestUrl UPLOAD key_k None
           (Some (URL.mk "https" "generativelanguage.googleapis.com"
                    ["upload"; "v1beta"; "files"] None None [])))
  /\ toString (mkServerRequestUrl UPLOAD key_k None
                 (Some (URL.mk "https" "generativelanguage.googleapis.com"
                          ["upload"; "v1beta"; "files"] None None [])))
     = inr "https://generativelanguage.googleapis.com/upload/v1beta/files".
Proof.
  pose proof (@C2_initial_url reference_platform reference_collaborators
                UPLOAD key_k None) as H.
  cbv zeta in H. destruct H as [_ H].
  change (@URL_parse reference_platform
            (or_default (optional_chain None baseUrl)
               (@DEFAULT_BASE_URL reference_collaborators)
             ++ "/upload" ++ "/"
             ++ or_default (optional_chain None apiVersion)
                  (@DEFAULT_API_VERSION reference_collaborators)
             ++ "/files")%string)
    with (Some (URL.mk "https" "generativelanguage.googleapis.com"
                  ["upload"; "v1beta"; "files"] None None [])) in H.
  cbv iota beta in H. destruct H as (H1 & _ & H3). split; [exact H1|].
  exact (H3 eq_refl).
Defined.

(** C2 as stated fails.  A baseUrl without a scheme composes to a
    string the URL parser rejects, and construction throws; a baseUrl
    written in capitals composes to a string the parser accepts and
    serializes differently; an apiVersion given as the empty string
    is replaced by the default. *)
Lemma C2_counterexample :
  (URLParser.parse "example/v1beta/files" = URLParser.Failure
   /\ @new_FilesRequestUrl reference_platform reference_collaborators
        GET key_k (Some (options_with_baseUrl "example"))
      = inl TypeError
   /\ @new_CachedContentUrl reference_platform reference_collaborators
        GET key_k (Some (options_with_baseUrl "example"))
      = inl TypeError)
  /\ ((this <- @new_FilesRequestUrl reference_platform reference_collaborators
                 GET key_k (Some (options_with_baseUrl "HTTPS://Example.COM")) ;;
       toString this)
      = inr "https://example.com/v1beta/files"
      /\ "https://example.com/v1beta/files" <> "HTTPS://Example.COM/v1beta/files")
  /\ (this <- @new_FilesRequestUrl reference_platform reference_collaborators
                GET key_k (Some (mkRequestOptions (Some "") None None None None)) ;;
      toString this)
     = inr "https://generativelanguage.googleapis.com/v1beta/files".
Proof. repeat split. discriminate. Qed.

(** C8 as stated fails on an instance of the base class: its URL state
    is undefined and appendParam throws.  And on an initialized
    instance a key or value with a blank or an ampersand enters the
    query string in its encoded form, not as k=v. *)
Lemma C8_counterexample :
  (let this := new_ServerRequestUrl GET key_k None in
   appendParam "k" "v" this = inl TypeError
   /\ (this1 <- appendParam "k" "v" this ;; appendParam "k" "v" this1)
      = inl TypeError)
  /\ (this <- appendParam "a b" "c&d" (files_url "key" None) ;;
      this <- appendParam "a b" "c&d" this ;;
      toString this)
     = inr "https://generativelanguage.googleapis.com/v1beta/files?a+b=c%26d&a+b=c%26d".
Proof. repeat split. Qed.

Example appendParam_twice :
  (this <- appendParam "k" "v" (files_url "key" None) ;;
   this <- appendParam "k" "v" this ;;
   toString this)
  = inr "https://generativelanguage.googleapis.com/v1beta/files?k=v&k=v".
Proof. reflexivity. Qed.

(** C9 at a concrete input: a FilesRequestUrl, then a path and a
    parameter appended. *)
Lemma C9_witness :
  exists this' u' s,
    @mutate_all reference_platform [AppendPath "abc"; AppendParam "k" "v"]
      (files_url "k" None) = inr this'
    /\ _url this' = Some u'
    /\ toString this' = inr s.
Proof.
  exact (proj2 (@C9_subclass_url_initialized reference_platform
                  reference_collaborators GET key_k None (files_url "k" None)
                  [AppendPath "abc"; AppendParam "k" "v"]
                  (or_intror eq_refl))).
Defined.

(** C9 as stated fails on an instance of the base class: the
    constructor leaves the URL state undefined, and path mutation,
    parameter mutation and stringification all throw. *)
Lemma C9_counterexample :
  let this := new_ServerRequestUrl GET key_k None in
  _url this = None
  /\ @appendPath reference_platform "abc" this = inl TypeError
  /\ appendParam "k" "v" this = inl TypeError
  /\ toString this = inl TypeError.
Proof. repeat split. Qed.

(** C4 at a concrete input: a heap whose only signal is aborted, given
    as the external signal. *)
Lemma C4_witness :
  let h := Abort.mk_heap [Abort.mk_signal true []] [] in
  let opts := mkRequestOptions None None None None (Some (Value 0)) in
  exists controller h',
    getSignal (Some opts) h = (Some controller, h')
    /\ Abort.is_aborted controller h' = false
    /\ Abort.is_aborted 0 h' = true
    /\ Abort.abort 0 h' = h'.
Proof.
  exact (C4_pre_aborted_signal_ignored
           (mkRequestOptions None None None None (Some (Value 0))) 0
           (Abort.mk_heap [Abort.mk_signal true []] []) eq_refl eq_refl).
Defined.

Example getSignal_pre_aborted :
  getSignal (Some (mkRequestOptions None None None None (Some (Value 0))))
    (Abort.mk_heap [Abort.mk_signal true []] [])
  = (Some 1,
     Abort.mk_heap
       [Abort.mk_signal true [Abort.AbortController_abort 1];
        Abort.mk_signal false []] []).
Proof. reflexivity. Qed.

Example getSignal_timeout_0 :
  let (s, h) :=
    getSignal
      (Some (mkRequestOptions None None None (Some (Value (Finite 0))) None))
      Abort.empty in
  s = Some 0
  /\ Abort.timers h = [(Finite 0, Abort.AbortController_abort 0)]
  /\ Abort.is_aborted 0 h = false
  /\ Abort.is_aborted 0 (Abort.run_callback (Abort.AbortController_abort 0) h)
     = true.
Proof. repeat split. Qed.

Example getSignal_no_options :
  getSignal None Abort.empty = (None, Abort.empty).
Proof. reflexivity. Qed.

(** A signal of null passes the guard and wires nothing: the signal
    returned has no listener and no timer behind it. *)
Example getSignal_null_signal :
  getSignal (Some (mkRequestOptions None None None None (Some Null)))
    (Abort.mk_heap [Abort.mk_signal false []] [])
  = (Some 1,
     Abort.mk_heap [Abort.mk_signal false []; Abort.mk_signal false []] []).
Proof. reflexivity. Qed.

(** A timeout of null passes the test null >= 0, and the timer is set
    with the delay 0. *)
Example getSignal_null_timeout :
  getSignal (Some (mkRequestOptions None None None (Some Null) None))
    Abort.empty
  = (Some 0,
     Abort.mk_heap [Abort.mk_signal false []]
       [(Finite 0, Abort.AbortController_abort 0)]).
Proof. reflexivity. Qed.

(** C5 as stated fails: a negative timeout is present in
    requestOptions, no external signal is, and getSignal returns no
    signal; likewise for a timeout that is NaN. *)
Lemma C5_counterexample :
  (let opts :=
     mkRequestOptions None None None (Some (Value (Finite (-1 # 1)))) None in
   timeout opts = Some (Value (Finite (-1 # 1)))
   /\ signal opts = None
   /\ getSignal (Some opts) Abort.empty = (None, Abort.empty))
  /\ (let opts := mkRequestOptions None None None (Some (Value NaN)) None in
      timeout opts = Some (Value NaN)
      /\ signal opts = None
      /\ getSignal (Some opts) Abort.empty = (None, Abort.empty)).
Proof. repeat split. Qed.

(** C6 at a concrete input: a stub transport that records what it is
    called with. *)
Lemma C6_witness :
  @makeServerRequest reference_collaborators _
    (files_url "k" None) [("x-goog-api-key", "k")]
    (Some (StringBody "payload"))
    (fun url requestInit => (url, requestInit)) Abort.empty
  = (inr ("https://generativelanguage.googleapis.com/v1beta/files",
          RequestInit.mk "GET" [("x-goog-api-key", "k")]
            (Some (StringBody "payload")) None),
     Abort.empty).
Proof.
  exact (@C6_dispatch reference_collaborators _
           (files_url "k" None) [("x-goog-api-key", "k")]
           (Some (StringBody "payload"))
           (fun url requestInit => (url, requestInit)) Abort.empty
           (fun R url fetchOptions fetchFn => eq_refl)).
Defined.

(** C6 as stated fails: the empty string is supplied as body, and the
    descriptor the transport receives has no body.  And on an instance
    of the base class the stringification throws before the transport
    is reached. *)
Lemma C6_counterexample :
  @makeServerRequest reference_collaborators _
    (files_url "k" None) [] (Some (StringBody ""))
    (fun url requestInit => (url, RequestInit.body requestInit)) Abort.empty
  = (inr ("https://generativelanguage.googleapis.com/v1beta/files", None),
     Abort.empty)
  /\ @makeServerRequest reference_collaborators _
       (new_ServerRequestUrl GET key_k None) [] None
       (fun url requestInit => (url, requestInit)) Abort.empty
     = (inl TypeError, Abort.empty).
Proof. split; reflexivity. Qed.


(** * Further properties *)

(** ** The order of header names *)

Lemma String_compare_trans (a b c : string) :
  String.compare a b <> Gt -> String.compare b c <> Gt ->
  String.compare a c <> Gt.
Proof.
  revert b c. induction a as [|x a IH]; intros [|y b] [|z c]; simpl;
    try congruence.
  unfold Ascii.compare.
  destruct (N.compare_spec (N_of_ascii x) (N_of_ascii y)) as [Exy|Lxy|Gxy];
    destruct (N.compare_spec (N_of_ascii y) (N_of_ascii z)) as [Eyz|Lyz|Gyz];
    try congruence; intros Hab Hbc.
  - rewrite Exy, Eyz, N.compare_refl. now apply (IH b c).
  - rewrite Exy. apply N.compare_lt_iff in Lyz. now rewrite Lyz.
  - rewrite <- Eyz. apply N.compare_lt_iff in Lxy. now rewrite Lxy.
  - assert (L : (N_of_ascii x < N_of_ascii z)%N) by lia.
    apply N.compare_lt_iff in L. now rewrite L.
Qed.

Lemma String_leb_trans (a b c : string) :
  String.leb a b = true -> String.leb b c = true -> String.leb a c = true.
Proof.
  unfold String.leb. intros Hab Hbc.
  pose proof (String_compare_trans a b c) as H.
  destruct (String.compare a b); destruct (String.compare b c);
    destruct (String.compare a c); try reflexivity; try discriminate;
    exfalso; apply H; congruence.
Qed.

Lemma Headers_insert_sorted (x : string) (l : list string) :
  Sorted.StronglySorted (fun a b => String.leb a b = true) l ->
  Sorted.StronglySorted (fun a b => String.leb a b = true) (Headers.insert x l).
Proof.
  induction 1 as [|y r Hr IH Hy]; simpl.
  - repeat constructor.
  - destruct (String.leb x y) eqn:E.
    + constructor; [now constructor|]. constructor; [assumption|].
      rewrite Forall_forall in *. intros z Hz.
      eapply String_leb_trans; [exact E|]. now apply Hy.
    + constructor; [assumption|]. rewrite Forall_forall in *.
      intros z Hz. apply Headers_insert_In in Hz as [->|Hz]; [|now apply Hy].
      destruct (String.leb_total x y) as [H|H]; [congruence|assumption].
Qed.

Lemma Headers_sort_sorted (l : list string) :
  Sorted.StronglySorted (fun a b => String.leb a b = true) (Headers.sort l).
Proof.
  induction l as [|x r IH]; simpl; [constructor|].
  now apply Headers_insert_sorted.
Qed.

Lemma StronglySorted_app {A} (R : A -> A -> Prop) (l1 l2 : list A) :
  Sorted.StronglySorted R l1 -> Sorted.StronglySorted R l2 ->
  (forall a b, In a l1 -> In b l2 -> R a b) ->
  Sorted.StronglySorted R (l1 ++ l2).
Proof.
  induction 1 as [|x r Hr IH Hx]; intros H2 H12; simpl; [assumption|].
  constructor.
  - apply IH; [assumption|]. intros a b Ha Hb. apply H12; [now right|assumption].
  - apply Forall_app. split; [assumption|].
    apply Forall_forall. intros b Hb. apply H12; [now left|assumption].
Qed.

Lemma same_name_sorted (n : string) (l : list (string * string)) :
  (forall e, In e l -> fst e = n) -> Sorted.StronglySorted name_le l.
Proof.
  induction l as [|e r IH]; intros H; constructor.
  - apply IH. intros e' He'. apply H. now right.
  - apply Forall_forall. intros e' He'. unfold name_le.
    rewrite (H e (or_introl eq_refl)), (H e' (or_intror He')).
    now destruct (String.leb_total n n).
Qed.

(** entries() yields its pairs in ascending order of their names. *)
Lemma Headers_entries_sorted (l : Headers.t) :
  Sorted.StronglySorted name_le (Headers.entries l).
Proof.
  unfold Headers.entries, Headers.sort_and_combine.
  set (f := fun name : string =>
              if name =? "set-cookie"
              then List.map (pair name) (Headers.values_of name l)
              else match Headers.get name l with
                   | Some value => [(name, value)]
                   | None => []
                   end).
  assert (Hf : forall n e, In e (f n) -> fst e = n).
  { intros n e. unfold f. destruct (n =? "set-cookie").
    - intros H. apply in_map_iff in H as (v & <- & _). reflexivity.
    - destruct (Headers.get n l); [|contradiction].
      intros [<-|[]]. reflexivity. }
  assert (Hflat : forall names,
             Sorted.StronglySorted (fun a b => String.leb a b = true) names ->
             Sorted.StronglySorted name_le (flat_map f names)).
  { induction 1 as [|n r Hr IH Hn]; simpl; [constructor|].
    apply StronglySorted_app; [apply (same_name_sorted n), Hf|assumption|].
    intros a b Ha Hb. apply in_flat_map in Hb as (m & Hm & Hb).
    unfold name_le. rewrite (Hf n a Ha), (Hf m b Hb).
    rewrite Forall_forall in Hn. now apply Hn. }
  apply Hflat, Headers_sort_sorted.
Qed.

Lemma normalized_sorted (E : list (string * string)) :
  Sorted.StronglySorted name_le E ->
  Sorted.StronglySorted name_le (List.map normalized E).
Proof.
  induction 1 as [|e r Hr IH He]; simpl; constructor; [assumption|].
  apply Forall_forall. intros e' He'. apply in_map_iff in He' as (e0 & <- & H0).
  rewrite Forall_forall in He. exact (He e0 H0).
Qed.

(** ** What the loop of getHeaders throws *)

Lemma merge_custom_error (E : list (string * string)) (h : Headers.t) (e : exn) :
  merge_custom E h = inl e ->
  e = TypeError
  \/ e = GoogleGenerativeAIRequestInputError (CannotSetReserved "x-goog-api-key")
  \/ e = GoogleGenerativeAIRequestInputError (OnlyViaApiClient "x-goog-api-client").
Proof.
  revert h. induction E as [|[n v] rest IH]; intros h; [discriminate|].
  rewrite merge_custom_cons. destruct (n =? "x-goog-api-key") eqn:Ek.
  - apply String.eqb_eq in Ek. subst n. intros H. injection H as <-. auto.
  - destruct (n =? "x-goog-api-client") eqn:Ec.
    + apply String.eqb_eq in Ec. subst n. intros H. injection H as <-. auto.
    + destruct (Headers.append_header n v h) as [e'|h'] eqn:Ea; simpl.
      * unfold Headers.append_header in Ea.
        destruct (Headers.is_header_name n && _); [discriminate|].
        injection Ea as <-. intros H. injection H as <-. auto.
      * apply IH.
Qed.

(** In sorted entries the client name comes before the key name, so it
    is the one the loop stops at when both are there. *)
Lemma merge_custom_client_first (E : list (string * string)) (h : Headers.t) :
  Sorted.StronglySorted name_le E ->
  (forall n v, In (n, v) E ->
     Headers.is_header_name n = true /\ Str.forallb unforbidden v = true) ->
  (exists v, In ("x-goog-api-client", v) E) ->
  merge_custom E h
  = inl (GoogleGenerativeAIRequestInputError (OnlyViaApiClient "x-goog-api-client")).
Proof.
  intros Hs. revert h. induction Hs as [|[n v] rest Hr IH Hn];
    intros h Hvalid [v0 Hin]; [contradiction|].
  rewrite merge_custom_cons. destruct (n =? "x-goog-api-key") eqn:Ek.
  - apply String.eqb_eq in Ek. subst n. exfalso.
    destruct Hin as [E|Hin]; [discriminate|].
    rewrite Forall_forall in Hn. specialize (Hn _ Hin).
    unfold name_le in Hn. simpl in Hn. discriminate.
  - destruct (n =? "x-goog-api-client") eqn:Ec.
    + apply String.eqb_eq in Ec. now subst n.
    + destruct (Hvalid n v (or_introl eq_refl)) as [Hname Hvalue].
      rewrite (Headers_append_ok n v h Hname Hvalue). simpl.
      apply IH.
      * intros n' v' H'. apply Hvalid. now right.
      * destruct Hin as [E|Hin]; [|now exists v0].
        injection E as En _. subst n. discriminate.
Qed.

Lemma merge_custom_key_only (E : list (string * string)) (h : Headers.t) :
  (forall n v, In (n, v) E ->
     Headers.is_header_name n = true /\ Str.forallb unforbidden v = true) ->
  (forall v, ~ In ("x-goog-api-client", v) E) ->
  (exists v, In ("x-goog-api-key", v) E) ->
  merge_custom E h
  = inl (GoogleGenerativeAIRequestInputError (CannotSetReserved "x-goog-api-key")).
Proof.
  revert h. induction E as [|[n v] rest IH]; intros h Hvalid Hno [v0 Hin];
    [contradiction|].
  rewrite merge_custom_cons. destruct (n =? "x-goog-api-key") eqn:Ek.
  - apply String.eqb_eq in Ek. now subst n.
  - destruct (n =? "x-goog-api-client") eqn:Ec.
    + apply String.eqb_eq in Ec. subst n. exfalso.
      apply (Hno v). now left.
    + destruct (Hvalid n v (or_introl eq_refl)) as [Hname Hvalue].
      rewrite (Headers_append_ok n v h Hname Hvalue). simpl.
      apply IH.
      * intros n' v' H'. apply Hvalid. now right.
      * intros v' H'. apply (Hno v'). now right.
      * destruct Hin as [E|Hin]; [|now exists v0].
        injection E as En _. subst n. discriminate.
Qed.

(** ** When `new Headers` throws *)

Lemma Headers_append_accepted (p : string * string) (l : Headers.t) :
  Headers.append_header (fst p) (snd p) l
  = if header_accepted p
    then inr (Headers.list_append (fst p) (Headers.normalize (snd p)) l)
    else inl TypeError.
Proof. reflexivity. Qed.

Lemma Headers_fill_accepted (init : list (string * string)) (l : Headers.t) :
  if forallb header_accepted init
  then exists l', Headers.fill init l = inr l'
  else Headers.fill init l = inl TypeError.
Proof.
  revert l. induction init as [|[n v] rest IH]; intros l; simpl.
  - now exists l.
  - pose proof (Headers_append_accepted (n, v) l) as Ha. simpl in Ha.
    rewrite Ha. destruct (header_accepted (n, v)); simpl; [apply IH|reflexivity].
Qed.

Lemma pair_accepted_eq (p : JSString.t * JSString.t) :
  pair_accepted p
  = pair_is_ByteString p && header_accepted (JSString.pair_bytes p).
Proof.
  unfold pair_accepted, name_accepted, value_accepted, pair_is_ByteString,
    header_accepted, JSString.pair_bytes. cbn [fst snd].
  destruct (JSString.is_ByteString (fst p)), (JSString.is_ByteString (snd p)),
    (Headers.is_header_name (JSString.bytes (fst p))); reflexivity.
Qed.

Lemma forallb_pair_accepted (init : list (JSString.t * JSString.t)) :
  forallb pair_accepted init
  = forallb pair_is_ByteString init
    && forallb header_accepted (List.map JSString.pair_bytes init).
Proof.
  induction init as [|p r IH]; [reflexivity|].
  cbn [forallb List.map]. rewrite IH, pair_accepted_eq.
  destruct (pair_is_ByteString p), (header_accepted (JSString.pair_bytes p)),
    (forallb pair_is_ByteString r); reflexivity.
Qed.

(** `new Headers(init)` returns exactly when [Headers.append] accepts
    every pair of [init]; otherwise it throws a TypeError. *)
Lemma Headers_of_init_accepted (init : list (JSString.t * JSString.t)) :
  if forallb pair_accepted init
  then exists l, Headers.of_init init = inr l
  else Headers.of_init init = inl TypeError.
Proof.
  rewrite forallb_pair_accepted, Headers_of_init_eq.
  destruct (forallb pair_is_ByteString init); [|reflexivity].
  cbn [andb].
  exact (Headers_fill_accepted (List.map JSString.pair_bytes init) Headers.new).
Qed.

Lemma forallb_false_exists {A} (p : A -> bool) (l : list A) :
  forallb p l = false <-> exists x, In x l /\ p x = false.
Proof.
  induction l as [|a r IH]; simpl.
  - split; [discriminate|]. now intros (x & [] & _).
  - destruct (p a) eqn:E; simpl.
    + rewrite IH. split.
      * intros (x & Hx & Hp). exists x. auto.
      * intros (x & [->|Hx] & Hp); [congruence|]. now exists x.
    + split; [|reflexivity]. intros _. exists a. auto.
Qed.

Section HeaderBuilderMore.

Context {collaborators : Collaborators}.

Lemma identity_headers_wf (url : ServerRequestUrl) :
  identity_valid url = true -> Headers.wf (identity_headers url) = true.
Proof.
  unfold identity_valid, identity_headers, Headers.wf, value_accepted. intros H.
  apply andb_true_iff in H as [H1 H2].
  apply andb_true_iff in H1 as [_ H1]. apply andb_true_iff in H2 as [_ H2].
  simpl. now rewrite H1, H2.
Qed.

Lemma normalized_entries_wf (c : Headers.t) :
  Headers.wf c = true ->
  Headers.wf (List.map normalized (Headers.entries c)) = true.
Proof.
  intros Hc. unfold Headers.wf. apply forallb_forall. intros e He.
  apply in_map_iff in He as ([n v] & <- & Hin). simpl.
  destruct (Headers_entries_valid n v c Hc Hin) as [Hn Hv].
  now rewrite Hn, (Headers_normalize_valid v Hv).
Qed.

End HeaderBuilderMore.

(** ** More on the header builder *)

(** X1.  Whenever getHeaders returns (customHeaders, if given as a
    Headers object, being a well-formed one), the collection starts
    with x-goog-api-client and x-goog-api-key, in this order; no later
    entry has a reserved name; every name is written in lowercase, and
    every pair passes the checks of Headers.append, so that the
    collection is a well-formed Headers object itself. *)
Theorem X1_result_shape {collaborators : Collaborators}
    (url : ServerRequestUrl) (headers : Headers.t) :
  custom_wf url = true ->
  getHeaders url = inr headers ->
  exists rest,
    headers = identity_headers url ++ rest
    /\ (forall e, In e rest -> reserved (fst e) = false)
    /\ all_lower headers
    /\ Headers.wf headers = true.
Proof.
  intros Hwf Hg.
  apply getHeaders_inv in Hg as (c & Hc & Hid & -> & Hres).
  exists (List.map normalized (Headers.entries c)).
  split; [reflexivity|]. split; [|split].
  - intros e He. apply in_map_iff in He as ([n v] & <- & Hin). simpl.
    exact (Hres n v Hin).
  - apply all_lower_app; [apply all_lower_identity|].
    intros e He. apply in_map_iff in He as ([n v] & <- & Hin). simpl.
    exact (all_lower_entries c (n, v) Hin).
  - rewrite Headers_wf_app, (identity_headers_wf url Hid).
    apply normalized_entries_wf. exact (converted_wf url c Hwf Hc).
Qed.

(** X2.  With identity values that Headers.append accepts and a plain
    customHeaders object, getHeaders throws the "unable to convert"
    input error exactly when some supplied pair has a name or a value
    that is no ByteString (it holds a code unit above 255), a name that
    is no token, or a value that, surrounding whitespace stripped,
    still holds NUL, LF or CR; this holds also when a reserved name is
    supplied beside it. *)
Theorem X2_unable_to_convert {collaborators : Collaborators}
    (url : ServerRequestUrl) (opts : RequestOptions)
    (init : list (JSString.t * JSString.t)) :
  requestOptions url = Some opts ->
  customHeaders opts = Some (PlainObject init) ->
  identity_valid url = true ->
  getHeaders url = inl (GoogleGenerativeAIRequestInputError (UnableToConvert init))
  <-> exists n v,
        In (n, v) init
        /\ (JSString.is_ByteString n = false
            \/ JSString.is_ByteString v = false
            \/ Headers.is_header_name (JSString.bytes n) = false
            \/ Headers.is_header_value
                 (Headers.normalize (JSString.bytes v)) = false).
Proof.
  intros Hopts Hcustom Hid.
  rewrite getHeaders_identity, Hid, Hopts. cbn [optional_chain].
  rewrite Hcustom. cbn [to_Headers].
  pose proof (Headers_of_init_accepted init) as Hinit.
  destruct (forallb pair_accepted init) eqn:E.
  - destruct Hinit as [c Hc]. rewrite Hc. cbn [bind ret]. split.
    + intros H. apply merge_custom_error in H as [H|[H|H]]; discriminate.
    + intros (n & v & Hin & Hbad). exfalso.
      rewrite forallb_forall in E. specialize (E (n, v) Hin).
      unfold pair_accepted, name_accepted, value_accepted in E.
      cbn [fst snd] in E.
      apply andb_true_iff in E as [E1 E2].
      apply andb_true_iff in E1 as [E1 E1'].
      apply andb_true_iff in E2 as [E2 E2'].
      destruct Hbad as [H|[H|[H|H]]]; congruence.
  - rewrite Hinit. cbn [bind throw]. split; [|reflexivity]. intros _.
    apply forallb_false_exists in E as ([n v] & Hin & Hp).
    exists n, v. split; [assumption|].
    unfold pair_accepted, name_accepted, value_accepted in Hp.
    cbn [fst snd] in Hp.
    destruct (JSString.is_ByteString n); [|now left].
    destruct (JSString.is_ByteString v); [|now right; left].
    destruct (Headers.is_header_name (JSString.bytes n));
      [|now right; right; left].
    right; right; right. exact Hp.
Qed.

(** X3.  With valid identity values and customHeaders that convert:
    when a supplied name is a case variant of x-goog-api-client,
    getHeaders throws the apiClient error, naming the header in
    lowercase, whether or not a variant of x-goog-api-key is supplied
    too (the names are visited in ascending order); when only variants
    of x-goog-api-key are supplied, it throws the reserved-name error,
    again with the lowercase name. *)
Theorem X3_error_message {collaborators : Collaborators}
    (url : ServerRequestUrl) (opts : RequestOptions) (custom : CustomHeaders)
    (c : Headers.t) :
  requestOptions url = Some opts ->
  customHeaders opts = Some custom ->
  CustomHeaders_wf custom = true ->
  identity_valid url = true ->
  to_Headers custom = inr c ->
  ((exists n, In (JSString.of_string n) (custom_names custom)
              /\ Str.lower n = "x-goog-api-client") ->
   getHeaders url
   = inl (GoogleGenerativeAIRequestInputError
            (OnlyViaApiClient "x-goog-api-client")))
  /\ ((exists n, In (JSString.of_string n) (custom_names custom)
                 /\ Str.lower n = "x-goog-api-key") ->
      (forall n, In (JSString.of_string n) (custom_names custom) ->
                 Str.lower n <> "x-goog-api-client") ->
      getHeaders url
      = inl (GoogleGenerativeAIRequestInputError
               (CannotSetReserved "x-goog-api-key"))).
Proof.
  intros Hopts Hcustom Hwf Hid Hc.
  rewrite getHeaders_identity, Hid, Hopts. simpl. rewrite Hcustom, Hc. simpl.
  destruct (to_Headers_inv custom c Hwf Hc) as [Hcwf Hnames].
  assert (Hvalid : forall n v, In (n, v) (Headers.entries c) ->
            Headers.is_header_name n = true /\ Str.forallb unforbidden v = true).
  { intros n v H. eapply Headers_entries_valid; eauto. }
  assert (Hhas : forall n r, In (JSString.of_string n) (custom_names custom) ->
            Str.lower n = r ->
            r <> "set-cookie" -> exists v, In (r, v) (Headers.entries c)).
  { intros n r Hin <- Hsc.
    destruct (Headers_entries_has (Str.lower n) c) as (v & _ & Hv);
      [|assumption|now exists v].
    rewrite Hnames. apply in_map.
    rewrite <- (JSString_bytes_of_string n). now apply in_map. }
  split.
  - intros (n & Hin & Hn).
    apply merge_custom_client_first;
      [apply Headers_entries_sorted|exact Hvalid|].
    apply (Hhas n _ Hin Hn). discriminate.
  - intros (n & Hin & Hn) Hno.
    apply merge_custom_key_only; [exact Hvalid| |].
    + intros v Hv. apply Headers_entries_name in Hv.
      rewrite Hnames in Hv. apply in_map_iff in Hv as (m & Hm & Hin').
      apply in_map_iff in Hin' as (x & <- & Hx).
      apply (Hno (JSString.bytes x)); [|exact Hm].
      rewrite JSString_of_string_bytes; [exact Hx|].
      exact (to_Headers_names custom c x Hc Hx).
    + apply (Hhas n _ Hin Hn). discriminate.
Qed.

(** X4.  Whenever getHeaders returns, the custom headers stand behind
    the two identity headers in ascending byte order of their lowercase
    names, whatever the order in which customHeaders supplied them. *)
Theorem X4_custom_headers_sorted {collaborators : Collaborators}
    (url : ServerRequestUrl) (headers : Headers.t) :
  getHeaders url = inr headers ->
  exists rest,
    headers = identity_headers url ++ rest
    /\ Sorted.StronglySorted name_le rest.
Proof.
  intros Hg. apply getHeaders_inv in Hg as (c & _ & _ & -> & _).
  exists (List.map normalized (Headers.entries c)). split; [reflexivity|].
  apply normalized_sorted, Headers_entries_sorted.
Qed.

(** ** More on the URL classes *)

(** X5.  On an initialized request URL every sequence of appendPath and
    appendParam calls returns normally; the parameters are exactly the
    old ones followed by the appended ones in call order, whatever
    appendPath calls come in between; scheme, host and fragment, task,
    apiKey and requestOptions stay as they were; and once a parameter
    was appended the query string is the form-urlencoded serialization
    of the whole parameter list (before that it is untouched). *)
Theorem X5_parameters_accumulate {platform : Platform}
    (ms : list mutation) (this : ServerRequestUrl) (u : URL.t) :
  _url this = Some u ->
  exists this' u',
    mutate_all ms this = inr this'
    /\ _url this' = Some u'
    /\ task this' = task this
    /\ apiKey this' = apiKey this
    /\ requestOptions this' = requestOptions this
    /\ URL.scheme u' = URL.scheme u
    /\ URL.host u' = URL.host u
    /\ URL.fragment u' = URL.fragment u
    /\ URL.searchParams u' = URL.searchParams u ++ params_of ms
    /\ URL.query u'
       = match params_of ms with
         | [] => URL.query u
         | _ :: _ =>
             Some (URL.form_serialize (URL.searchParams u ++ params_of ms))
         end.
Proof.
  revert this u. induction ms as [|m rest IH]; intros this u Hu.
  - exists this, u. simpl. rewrite app_nil_r. repeat split; assumption.
  - destruct m as [path|key value].
    + set (u1 := URL.set_path
                   (URL_path_state u (URL.pathname u ++ "/" ++ path)%string) u).
      destruct (IH (set_url u1 this) u1 eq_refl)
        as (this' & u' & Hm & Hu' & Ht & Hk & Ho & Hs & Hh & Hf & Hp & Hq).
      exists this', u'. split.
      * simpl. unfold appendPath, the_url. rewrite Hu. exact Hm.
      * repeat split; assumption.
    + set (u1 := URL.searchParams_append key value u).
      destruct (IH (set_url u1 this) u1 eq_refl)
        as (this' & u' & Hm & Hu' & Ht & Hk & Ho & Hs & Hh & Hf & Hp & Hq).
      destruct (searchParams_append_spec key value u) as [Hp1 Hq1].
      fold u1 in Hp1, Hq1.
      exists this', u'. split.
      * simpl. unfold appendParam, the_url. rewrite Hu. exact Hm.
      * repeat split; try assumption.
        -- rewrite Hp, Hp1, <- app_assoc. reflexivity.
        -- rewrite Hq, Hp1, Hq1. simpl.
           destruct (params_of rest); [reflexivity|].
           now rewrite <- app_assoc.
Qed.

(** *** appendPath under the reference parser *)

Lemma encode_path_plain (s : string) :
  Str.forallb segment_char s = true -> URLParser.encode_path s = s.
Proof.
  induction s as [|c r IH]; simpl; [reflexivity|].
  intros H. apply andb_true_iff in H as [Hc Hr].
  apply segment_char_facts in Hc as (_ & Hc & _). apply negb_true_iff in Hc.
  unfold URLParser.encode_path_char. rewrite Hc. simpl. now rewrite (IH Hr).
Qed.

Lemma encode_path_plain_all (path : list string) :
  forallb (Str.forallb segment_char) path = true ->
  List.map URLParser.encode_path path = path.
Proof.
  induction path as [|seg rest IH]; simpl; [reflexivity|].
  intros H. apply andb_true_iff in H as [Hseg Hrest].
  now rewrite (encode_path_plain seg Hseg), (IH Hrest).
Qed.

Lemma joined_concat (segs : list string) :
  segs <> [] -> joined segs = String "/" (String.concat "/" segs).
Proof.
  induction segs as [|a r IH]; intros Hne; [contradiction|].
  rewrite joined_cons. destruct r as [|b r'].
  - simpl. change (joined []) with EmptyString. now rewrite Str_app_empty_r.
  - rewrite IH by discriminate. reflexivity.
Qed.

Lemma forallb_removelast {A} (p : A -> bool) (l : list A) :
  forallb p l = true -> forallb p (removelast l) = true.
Proof.
  induction l as [|a r IH]; [reflexivity|].
  intros H. simpl in H. apply andb_true_iff in H as [Ha Hr].
  destruct r as [|b r']; [reflexivity|].
  change (removelast (a :: b :: r')) with (a :: removelast (b :: r')).
  simpl. rewrite Ha. exact (IH Hr).
Qed.

(** The path state on plain segments followed by one more segment. *)
Lemma path_state_snoc (segments path : list string) (last : string) :
  forallb (fun seg => negb (URLParser.is_single_dot seg)
                      && negb (URLParser.is_double_dot seg)) segments = true ->
  URLParser.path_state (segments ++ [last]) path
  = URLParser.path_state [last] (path ++ segments).
Proof.
  revert path. induction segments as [|seg rest IH]; intros path H.
  - simpl app. now rewrite app_nil_r.
  - simpl in H. apply andb_true_iff in H as [Hseg Hrest].
    apply andb_true_iff in Hseg as [Hs Hd]. apply negb_true_iff in Hs, Hd.
    assert (E : URLParser.path_state ((seg :: rest) ++ [last]) path
                = URLParser.path_state (rest ++ [last])
                    (if URLParser.is_double_dot seg then removelast path
                     else if URLParser.is_single_dot seg then path
                     else path ++ [seg])).
    { simpl app. destruct rest; reflexivity. }
    rewrite E, Hs, Hd, (IH _ Hrest). now rewrite <- app_assoc.
Qed.

(** The path string of plain segments and one more segment parses to
    the path state run on these segments. *)
Lemma parse_path_snoc (path : list string) (last : string) :
  forallb plain_segment path = true ->
  Str.forallb (fun c => negb (URLParser.ch "/" c)) last = true ->
  URLParser.parse_path (joined path ++ String "/" last)
  = URLParser.path_state [last] path.
Proof.
  intros Hpath Hlast.
  destruct (plain_segments_facts _ Hpath) as [Hc Hd].
  assert (Hslash : forallb (Str.forallb (fun c => negb (URLParser.ch "/" c)))
                     (path ++ [last]) = true).
  { rewrite forallb_app. apply andb_true_iff. split.
    - eapply forallb_Str_weaken; [|exact Hc].
      intros c Hc'. now apply segment_char_facts in Hc'.
    - cbn [forallb]. now rewrite Hlast. }
  assert (E : (joined path ++ String "/" last)%string = joined (path ++ [last])).
  { rewrite joined_app. reflexivity. }
  rewrite E. unfold URLParser.parse_path.
  destruct (path ++ [last]) as [|seg rest] eqn:El.
  { destruct path; discriminate. }
  rewrite joined_cons, split_joined by exact Hslash.
  rewrite <- El. rewrite path_state_snoc by exact Hd. reflexivity.
Qed.

(** X6.  Under the reference parser, on a request URL whose path is
    plain, appendPath with one or more plain segments (joined by
    slashes when more than one) appends exactly these segments behind
    the segments already there: the pathname gains a slash and the
    given string, and nothing else of the URL changes.  In particular
    the empty string appends an empty segment (a trailing slash). *)
Theorem X6_appendPath_appends (this : ServerRequestUrl) (u : URL.t)
    (segs : list string) :
  _url this = Some u ->
  forallb plain_segment (URL.path u) = true ->
  forallb plain_segment segs = true ->
  segs <> [] ->
  @appendPath reference_platform (String.concat "/" segs) this
  = inr (set_url (URL.set_path (URL.path u ++ segs) u) this)
  /\ URL.pathname (URL.set_path (URL.path u ++ segs) u)
     = (URL.pathname u ++ "/" ++ String.concat "/" segs)%string.
Proof.
  intros Hu Hpath Hsegs Hne.
  assert (E : (URL.pathname u ++ "/" ++ String.concat "/" segs)%string
              = joined (URL.path u ++ segs)).
  { rewrite joined_app, (joined_concat segs Hne). reflexivity. }
  split; [|exact (eq_sym E)].
  unfold appendPath, the_url. rewrite Hu. simpl bind.
  cbn [URL_path_state reference_platform]. unfold URLParser.set_pathname.
  change (URL.pathname u ++ String "/" (String.concat "/" segs))%string
    with (URL.pathname u ++ "/" ++ String.concat "/" segs)%string.
  unfold ret. rewrite E, parse_path_joined.
  - rewrite encode_path_plain_all; [reflexivity|].
    apply plain_segments_facts. now rewrite forallb_app, Hpath, Hsegs.
  - destruct (URL.path u); [assumption|discriminate].
  - now rewrite forallb_app, Hpath, Hsegs.
Qed.

(** X7.  Under the reference parser, on a request URL whose path is
    plain, appendPath does not append a dot segment: ".." removes the
    last segment of the path and leaves an empty one in its place, and
    "." only adds an empty segment; the segment given is never part of
    the resulting path. *)
Theorem X7_appendPath_dot_segments (this : ServerRequestUrl) (u : URL.t) :
  _url this = Some u ->
  forallb plain_segment (URL.path u) = true ->
  @appendPath reference_platform ".." this
  = inr (set_url (URL.set_path (removelast (URL.path u) ++ [""]) u) this)
  /\ @appendPath reference_platform "." this
     = inr (set_url (URL.set_path (URL.path u ++ [""]) u) this).
Proof.
  intros Hu Hpath.
  destruct (plain_segments_facts _ Hpath) as [Hc _].
  assert (Hdd : URLParser.parse_path (URL.pathname u ++ String "/" "..")
                = removelast (URL.path u) ++ [""]).
  { change (URL.pathname u) with (joined (URL.path u)).
    rewrite parse_path_snoc by (assumption || reflexivity). reflexivity. }
  assert (Hsd : URLParser.parse_path (URL.pathname u ++ String "/" ".")
                = URL.path u ++ [""]).
  { change (URL.pathname u) with (joined (URL.path u)).
    rewrite parse_path_snoc by (assumption || reflexivity). reflexivity. }
  split; unfold appendPath, the_url; rewrite Hu; simpl bind;
    cbn [URL_path_state reference_platform]; unfold URLParser.set_pathname, ret.
  - rewrite Hdd, map_app, encode_path_plain_all; [reflexivity|].
    now apply forallb_removelast.
  - rewrite Hsd, map_app, encode_path_plain_all; [reflexivity|assumption].
Qed.

(** ** More on the signal builder *)





(** X10.  For a request URL whose requestOptions carry an external
    signal that is not aborted at call time, the descriptor that
    makeServerRequest hands to makeRequest holds the signal of a new
    controller, never the external signal itself; this signal is not
    aborted when the request is dispatched, and it is aborted as soon
    as the external signal is aborted afterwards. *)
Theorem X10_dispatched_signal_follows_abort {collaborators : Collaborators}
    (url : ServerRequestUrl) (opts : RequestOptions) (external : Abort.signal)
    (st : Abort.signal_state) (headers : Headers.t) (body : option Body)
    (h : Abort.heap) :
  requestOptions url = Some opts ->
  signal opts = Some (Value external) ->
  nth_error (Abort.signals h) external = Some st ->
  Abort.aborted st = false ->
  exists requestInit controller h',
    RequestInit.signal requestInit = Some controller
    /\ controller <> external
    /\ nth_error (Abort.signals h) controller = None
    /\ (forall (R : Type) (fetchFn : string -> RequestInit.t -> R),
          makeServerRequest url headers body fetchFn h
          = (s <- toString url ;; ret (makeRequest R s requestInit fetchFn), h'))
    /\ Abort.is_aborted controller h' = false
    /\ Abort.is_aborted controller (Abort.abort external h') = true.
Proof.
  intros Hopts Hs Hst Ha.
  destruct (getSignal_follows_later_abort opts external st h Hs Hst Ha)
    as (controller & h' & Hg & Hnot & Hthen).
  assert (Hc : controller = List.length (Abort.signals h)).
  { rewrite getSignal_eq in Hg. unfold signal_defined in Hg. simpl in Hg.
    rewrite Hs in Hg. simpl in Hg. now injection Hg as <- _. }
  exists (RequestInit.mk (taskToMethod (task url)) headers
            (if body_truthy body then body else None) (Some controller)),
         controller, h'.
  split; [reflexivity|]. split; [|split; [|split; [|split]]].
  - intros E. subst external. rewrite Hc in Hst.
    assert (H : nth_error (Abort.signals h) (List.length (Abort.signals h)) = None)
      by (apply nth_error_None; lia).
    congruence.
  - rewrite Hc. apply nth_error_None. lia.
  - intros R fetchFn. unfold makeServerRequest. rewrite Hopts, Hg.
    now destruct (body_truthy body).
  - exact Hnot.
  - exact Hthen.
Qed.

(** ** Concrete runs of the further properties *)

(** X1 at a concrete input: one custom header, its name capitalized and
    its value given with blanks around it. *)
Lemma X1_witness :
  let url := files_url "k" (Some (options_with_headers [("Foo", " bar ")])) in
  let headers := [("x-goog-api-client", "genai-js/0.21.0");
                  ("x-goog-api-key", "k"); ("foo", "bar")] in
  exists rest,
    headers = @identity_headers reference_collaborators url ++ rest
    /\ (forall e, In e rest -> reserved (fst e) = false)
    /\ all_lower headers
    /\ Headers.wf headers = true.
Proof.
  exact (@X1_result_shape reference_collaborators
           (files_url "k" (Some (options_with_headers [("Foo", " bar ")])))
           [("x-goog-api-client", "genai-js/0.21.0");
            ("x-goog-api-key", "k"); ("foo", "bar")]
           eq_refl eq_refl).
Defined.

(** X2 at a concrete input: the value of foo is the one code unit
    0x0416, which is no byte. *)
Lemma X2_witness :
  let init := [(JSString.of_string "foo", [1046%N])] in
  let url := mkServerRequestUrl GET key_k
               (Some (mkRequestOptions None None (Some (PlainObject init))
                        None None))
               None in
  @getHeaders reference_collaborators url
  = inl (GoogleGenerativeAIRequestInputError (UnableToConvert init)).
Proof.
  apply (proj2 (@X2_unable_to_convert reference_collaborators
                  (mkServerRequestUrl GET key_k
                     (Some (mkRequestOptions None None
                              (Some (PlainObject
                                       [(JSString.of_string "foo", [1046%N])]))
                              None None))
                     None)
                  (mkRequestOptions None None
                     (Some (PlainObject [(JSString.of_string "foo", [1046%N])]))
                     None None)
                  [(JSString.of_string "foo", [1046%N])]
                  eq_refl eq_refl eq_refl)).
  exists (JSString.of_string "foo"), [1046%N].
  split; [left; reflexivity|right; left; reflexivity].
Defined.

(** X3 at a concrete input: both reserved names supplied, the key name
    first. *)
Lemma X3_witness :
  let init := [("X-Goog-Api-Key", "a"); ("X-Goog-Api-Client", "b")] in
  let url := files_url "k" (Some (options_with_headers init)) in
  @getHeaders reference_collaborators url
  = inl (GoogleGenerativeAIRequestInputError
           (OnlyViaApiClient "x-goog-api-client")).
Proof.
  refine (proj1 (@X3_error_message reference_collaborators
                   (files_url "k"
                      (Some (options_with_headers
                               [("X-Goog-Api-Key", "a");
                                ("X-Goog-Api-Client", "b")])))
                   (options_with_headers
                      [("X-Goog-Api-Key", "a"); ("X-Goog-Api-Client", "b")])
                   (plain_object
                      [("X-Goog-Api-Key", "a"); ("X-Goog-Api-Client", "b")])
                   [("X-Goog-Api-Key", "a"); ("X-Goog-Api-Client", "b")]
                   eq_refl eq_refl eq_refl eq_refl eq_refl) _).
  exists "X-Goog-Api-Client". split; [right; left; reflexivity|reflexivity].
Defined.

(** X4 at a concrete input: two custom headers supplied in descending
    order. *)
Lemma X4_witness :
  let url := files_url "k"
               (Some (options_with_headers [("zeta", "1"); ("Alpha", "2")])) in
  let headers := [("x-goog-api-client", "genai-js/0.21.0");
                  ("x-goog-api-key", "k"); ("alpha", "2"); ("zeta", "1")] in
  exists rest,
    headers = @identity_headers reference_collaborators url ++ rest
    /\ Sorted.StronglySorted name_le rest.
Proof.
  exact (@X4_custom_headers_sorted reference_collaborators
           (files_url "k"
              (Some (options_with_headers [("zeta", "1"); ("Alpha", "2")])))
           [("x-goog-api-client", "genai-js/0.21.0");
            ("x-goog-api-key", "k"); ("alpha", "2"); ("zeta", "1")]
           eq_refl).
Defined.

(** X5 at a concrete input: a path appended between two parameters. *)
Lemma X5_witness :
  exists this' u',
    @mutate_all reference_platform
      [AppendParam "a" "1"; AppendPath "x"; AppendParam "b" "2"]
      (files_url "k" None) = inr this'
    /\ _url this' = Some u'
    /\ URL.searchParams u' = [("a", "1"); ("b", "2")]
    /\ URL.query u' = Some "a=1&b=2"%string.
Proof.
  destruct (@X5_parameters_accumulate reference_platform
              [AppendParam "a" "1"; AppendPath "x"; AppendParam "b" "2"]
              (files_url "k" None)
              (URL.mk "https" "generativelanguage.googleapis.com"
                 ["v1beta"; "files"] None None [])
              eq_refl)
    as (this' & u' & Hm & Hu & _ & _ & _ & _ & _ & _ & Hp & Hq).
  exists this', u'. repeat split; assumption.
Defined.

(** X6 at a concrete input: two segments appended at once. *)
Lemma X6_witness :
  let u := URL.mk "https" "generativelanguage.googleapis.com"
             ["v1beta"; "files"] None None [] in
  @appendPath reference_platform "abc/def" (files_url "k" None)
  = inr (set_url (URL.set_path ["v1beta"; "files"; "abc"; "def"] u)
           (files_url "k" None))
  /\ URL.pathname (URL.set_path ["v1beta"; "files"; "abc"; "def"] u)
     = "/v1beta/files/abc/def"%string.
Proof.
  refine (@X6_appendPath_appends (files_url "k" None)
            (URL.mk "https" "generativelanguage.googleapis.com"
               ["v1beta"; "files"] None None [])
            ["abc"; "def"] eq_refl eq_refl eq_refl _).
  discriminate.
Defined.

(** X7 at a concrete input: the files segment is lost to "..". *)
Lemma X7_witness :
  let u := URL.mk "https" "generativelanguage.googleapis.com"
             ["v1beta"; "files"] None None [] in
  @appendPath reference_platform ".." (files_url "k" None)
  = inr (set_url (URL.set_path ["v1beta"; ""] u) (files_url "k" None))
  /\ @appendPath reference_platform "." (files_url "k" None)
     = inr (set_url (URL.set_path ["v1beta"; "files"; ""] u) (files_url "k" None)).
Proof.
  exact (X7_appendPath_dot_segments (files_url "k" None)
           (URL.mk "https" "generativelanguage.googleapis.com"
              ["v1beta"; "files"] None None [])
           eq_refl eq_refl).
Defined.



(** X10 at a concrete input: a heap whose only signal, not aborted, is
    given as the external one. *)
Lemma X10_witness :
  let h := Abort.mk_heap [Abort.mk_signal false []] [] in
  let url :=
    files_url "k"
      (Some (mkRequestOptions None None None None (Some (Value 0)))) in
  exists requestInit controller h',
    RequestInit.signal requestInit = Some controller
    /\ controller <> 0
    /\ nth_error (Abort.signals h) controller = None
    /\ (forall (R : Type) (fetchFn : string -> RequestInit.t -> R),
          @makeServerRequest reference_collaborators R url Headers.new None
            fetchFn h
          = (s <- toString url ;;
             ret (@makeRequest reference_collaborators R s requestInit fetchFn),
             h'))
    /\ Abort.is_aborted controller h' = false
    /\ Abort.is_aborted controller (Abort.abort 0 h') = true.
Proof.
  exact (@X10_dispatched_signal_follows_abort reference_collaborators
           (files_url "k" (Some (mkRequestOptions None None None None (Some (Value 0)))))
           (mkRequestOptions None None None None (Some (Value 0))) 0
           (Abort.mk_signal false []) Headers.new None
           (Abort.mk_heap [Abort.mk_signal false []] [])
           eq_refl eq_refl eq_refl eq_refl).
Defined.
